(** * blinky: the per-LED command interpreter of [blinky.py]

    A shallow embedding of the thread body [blinky.blinky] (the method
    run by one thread per LED) and of [__init__], with the properties
    of the command handling: repeat counts, save / restore, exit and
    preemption.

    The thread talks to three things outside itself: the command
    queue (filled by other threads), the GPIO driver and the console.
    The embedding threads the queue explicitly through every function
    and records every interaction as an [event] of a trace.  What the
    builtins [time.sleep], [float] and [int] do with values that this
    file cannot compute on (delays near the limit of the clock, strs
    read as numbers) is taken from a [platform]. *)

From Stdlib Require Import ZArith List String Ascii Bool Lia.
Import ListNotations.
Local Open Scope Z_scope.

(** ** Python values and commands *)

(** Items found in a command list.  The module docstring documents
    ints and strs; the demo also sends [[0, 0, 0, CMD_RESTORE]], an int
    where the bitstream str is expected. *)
Inductive pyval : Type :=
| PInt (z : Z)
| PStr (s : string).

(** A command is the Python list put on the queue. *)
Definition command : Type := list pyval.

Definition CMD_SAVE : Z := 1.
Definition CMD_RESTORE : Z := 2.
Definition CMD_EXIT : Z := -99.
Definition DRIVER_RPIGPIO : Z := -1.
Definition DRIVER_GPIOZERO : Z := -2.

(** [self.driver]: a pigpio server handle (anything that is not an int)
    or one of the integer driver codes. *)
Inductive driver : Type :=
| PigpioHandle
| DriverCode (z : Z).

Definition pyval_eqb (a b : pyval) : bool :=
  match a, b with
  | PInt x, PInt y => x =? y
  | PStr s, PStr t => String.eqb s t
  | _, _ => false
  end.

(** [cmd[3] == k] for an integer constant [k]. *)
Definition eq_int (v : pyval) (k : Z) : bool := pyval_eqb v (PInt k).

(** *** Delays and the platform *)

(** The value [float(cmd[0]) / 1000] handed to [time.sleep], named by
    the item it was computed from: so many milliseconds for an int, or
    the reading of a str as a float. *)
Inductive delay : Type :=
| Ms (z : Z)
| FloatOf (s : string).

(** What the builtins do where this file does not compute it.
    [time.sleep] refuses delays that its clock cannot hold (with
    OverflowError or OSError; where the limit lies depends on the
    platform), and [float] and [int] read strs by grammars of their
    own. *)
Record platform : Type := mkPlatform {
  sleep_ok : delay -> bool;          (* [time.sleep] takes this delay and
                                        returns normally; for whole
                                        milliseconds it is asked about
                                        delays from 0 up only *)
  float_str : string -> bool;        (* [float(s)] returns *)
  int_str : string -> option Z       (* [int(s)]; [None] for ValueError *)
}.

(** The platform of the worked examples: delays of whole milliseconds
    up to 10^9 are slept, and no str is read as a number.  The
    examples hand only ints to [float] and [int] and sleep for short
    delays, so that nothing in them depends on these answers. *)
Definition sample : platform :=
  {| sleep_ok := fun d => match d with
                          | Ms z => z <=? 1000000000
                          | FloatOf _ => false
                          end;
     float_str := fun _ => false;
     int_str := fun _ => None |}.

(** [float(z)] raises OverflowError for an int that rounds to 2^1024 or
    beyond: from [2^1024 - 2^970] on, in absolute value. *)
Definition float_limit : Z := 2 ^ 1024 - 2 ^ 970.

(** *** The builtins [int], [float] and [list] on these values *)

(** [int(ch)] for a one-character str: the digit, or ValueError. *)
Definition int_of_char (ch : ascii) : option Z :=
  let n := nat_of_ascii ch in
  if ((48 <=? n)%nat && (n <=? 57)%nat)%bool
  then Some (Z.of_nat (n - 48))
  else None.

(** [list(v)]: the characters of a str; TypeError on an int. *)
Definition py_list (v : pyval) : option (list ascii) :=
  match v with
  | PInt _ => None
  | PStr s => Some (list_ascii_of_string s)
  end.

(** ** Events *)

(** The four unconditional console reports of the thread body (debug
    output is not recorded). *)
Inductive report : Type :=
| NoPriorSave (c : command)      (* "Attempted command restore with no prior save" *)
| InvalidOption (c : command)    (* "Invalid save/restore command received" *)
| InvalidCommand (c : command)   (* "Invalid command received" *)
| Aborted (c : option command).  (* "blinky error while processing command" *)

Inductive event : Type :=
| Get (c : command)       (* [self.queue.get()] returned [c] *)
| Poll (empty : bool)     (* [self.queue.empty()] returned [empty] *)
| Write (level : Z)       (* [driver.write] / [GPIO.output] with this level *)
| On                      (* [gpiozero_instance.on()] *)
| Off                     (* [gpiozero_instance.off()] *)
| Hold (d : delay)        (* [time.sleep(period)] ran to completion *)
| Close                   (* [gpiozero_instance.close()] *)
| Print (r : report).

Definition trace : Type := list event.

(** Lines 153-158: the driver call made for one bit. *)
Definition pin (drv : driver) (level : Z) : event :=
  match drv with
  | PigpioHandle => Write level
  | DriverCode d =>
      if d =? DRIVER_RPIGPIO then Write level
      else if level =? 0 then Off else On
  end.

(** Lines 163-164: the driver call made when the thread exits. *)
Definition close (drv : driver) : trace :=
  match drv with
  | PigpioHandle => []
  | DriverCode d => if d =? DRIVER_GPIOZERO then [Close] else []
  end.

Definition is_pin (e : event) : bool :=
  match e with
  | Write _ | On | Off => true
  | _ => false
  end.

Definition is_hold (e : event) : bool :=
  match e with
  | Hold _ => true
  | _ => false
  end.

(** The driver calls of a trace, in order. *)
Definition pin_writes (t : trace) : trace := filter is_pin t.

(** ** The queue and its producers *)

(** The thread is the only consumer of its queue; other threads push.
    A [world] holds the commands queued now and, for each later look
    at the queue, the batch pushed since the look before. *)
Record world : Type := mkWorld {
  queue : list command;
  arrivals : list (list command)
}.

(** What has been pushed by the time of the next look. *)
Definition absorb (w : world) : world :=
  {| queue := queue w ++ hd [] (arrivals w); arrivals := tl (arrivals w) |}.

Definition is_nil {A : Type} (l : list A) : bool :=
  match l with
  | [] => true
  | _ :: _ => false
  end.

(** [self.queue.empty()]. *)
Definition queue_empty (w : world) : bool * world :=
  let w' := absorb w in (is_nil (queue w'), w').

(** [self.queue.get()]: takes the head of the queue when there is one;
    otherwise waits through the batches to come until one holds a
    command.  [None] when nothing is queued and nothing ever arrives:
    the call blocks for good. *)
Fixpoint get_from (q : list command) (arr : list (list command))
  : option (command * world) :=
  match q with
  | c :: q' => Some (c, {| queue := q'; arrivals := arr |})
  | [] =>
      match arr with
      | [] => None
      | b :: arr' => get_from b arr'
      end
  end.

Definition queue_get (w : world) : option (command * world) :=
  get_from (queue w) (arrivals w).

(** Nothing queued and nothing arriving. *)
Definition quiet (w : world) : Prop :=
  queue w = [] /\ Forall (fun b => b = []) (arrivals w).

(** ** The thread body *)

(** The three locals that survive from one command to the next. *)
Record player : Type := mkPlayer {
  cmd : option command;        (* [cmd] *)
  cmd_save : option command;   (* [cmd_save] *)
  do_exit : bool               (* [do_exit] *)
}.

(** Lines 108-110. *)
Definition start : player :=
  {| cmd := None; cmd_save := None; do_exit := false |}.

Inductive pass_end : Type :=
| Finished    (* the [for] loop ended, by running out of bits or by [break] *)
| Threw.      (* an exception left the loop *)

Inductive outcome : Type :=
| Preempted   (* line 149: left because the queue is not empty *)
| Exhausted   (* line 169: left because the repeat count reached 0 *)
| Exited      (* line 165: [sys.exit()] *)
| Raised      (* an exception, caught at line 170 *)
| OutOfFuel.  (* still looping after the given number of passes *)

Definition len (c : command) : Z := Z.of_nat (List.length c).

(** [cmd[i]] where the index is known to be in range. *)
Definition item (c : command) (i : nat) : pyval := nth i c (PInt 0).

Inductive resolution : Type :=
| Skip (r : report)                                       (* [continue] *)
| Throw                                                   (* an exception *)
| Play (period : delay) (bits : list ascii) (rptcnt : Z). (* go on to line 147 *)

Inductive status : Type :=
| Continue (st : player) (w : world)   (* back to line 113 *)
| ThreadExit                           (* the thread is gone *)
| Spinning (st : player) (w : world).  (* playback still running *)

Inductive final : Type :=
| Waiting (st : player)                (* blocked in [queue.get()] for good *)
| Terminated                           (* [sys.exit()] was reached *)
| Running (st : player) (w : world).   (* budget used up *)

Section Thread.

Variable pf : platform.

(** [int(v)]. *)
Definition py_int (v : pyval) : option Z :=
  match v with
  | PInt z => Some z
  | PStr s => int_str pf s
  end.

(** [float(v) / 1000]: the delay, or [None] when [float] raises
    (OverflowError for an int out of range, ValueError for a str that
    is no number). *)
Definition py_float (v : pyval) : option delay :=
  match v with
  | PInt z => if Z.abs z <? float_limit then Some (Ms z) else None
  | PStr s => if float_str pf s then Some (FloatOf s) else None
  end.

(** [time.sleep(d)] returns normally: never for a negative delay
    (ValueError), otherwise as the platform has it. *)
Definition sleeps (d : delay) : bool :=
  match d with
  | Ms z => ((0 <=? z) && sleep_ok pf d)%bool
  | FloatOf _ => sleep_ok pf d
  end.

(** *** Lines 150-159: one pass over the bitstream *)

Fixpoint play_bits (drv : driver) (period : delay) (bits : list ascii)
    (w : world) : trace * world * pass_end :=
  match bits with
  | [] => ([], w, Finished)
  | bit :: rest =>
      let (empty, w1) := queue_empty w in
      if negb empty then ([Poll false], w1, Finished)
      else
        match int_of_char bit with
        | None => ([Poll true], w1, Threw)
        | Some level =>
            if sleeps period
            then
              let '(t, w2, e) := play_bits drv period rest w1 in
              (Poll true :: pin drv level :: Hold period :: t, w2, e)
            else ([Poll true; pin drv level], w1, Threw)
        end
  end.

(** *** Lines 147-169: the playback loop *)

Fixpoint playback (fuel : nat) (drv : driver) (exiting : bool)
    (period : delay) (bits : list ascii) (rptcnt : Z) (w : world)
  : trace * world * outcome :=
  match fuel with
  | O => ([], w, OutOfFuel)
  | S fuel' =>
      let (empty, w1) := queue_empty w in
      if negb empty then ([Poll false], w1, Preempted)
      else
        let '(t, w2, e) := play_bits drv period bits w1 in
        match e with
        | Threw => (Poll true :: t, w2, Raised)
        | Finished =>
            if exiting then (Poll true :: t ++ close drv, w2, Exited)
            else if 0 <? rptcnt then
              if rptcnt - 1 =? 0 then (Poll true :: t, w2, Exhausted)
              else
                let '(t', w3, o) :=
                  playback fuel' drv exiting period bits (rptcnt - 1) w2 in
                (Poll true :: t ++ t', w3, o)
            else
              let '(t', w3, o) :=
                playback fuel' drv exiting period bits rptcnt w2 in
              (Poll true :: t ++ t', w3, o)
        end
  end.

(** *** Lines 118-142: option handling and field decoding *)

(** Lines 136-142, applied to the current [cmd]. *)
Definition decode (c : command) : resolution :=
  if (len c =? 3) || (len c =? 4) then
    match py_float (item c 0) with
    | None => Throw
    | Some period =>
        match py_list (item c 1) with
        | None => Throw
        | Some bits =>
            match py_int (item c 2) with
            | None => Throw
            | Some rptcnt => Play period bits rptcnt
            end
        end
    end
  else Skip (InvalidCommand c).

(** Lines 113-142 for the command [c] just taken from the queue.
    [cmd_prior] is the [cmd] of the incoming player. *)
Definition resolve (st : player) (c : command) : player * resolution :=
  let cmd_prior := cmd st in
  let st := {| cmd := Some c; cmd_save := cmd_save st; do_exit := do_exit st |} in
  if len c =? 4 then
    if eq_int (item c 3) CMD_SAVE then
      let st := {| cmd := cmd st; cmd_save := cmd_prior; do_exit := do_exit st |} in
      (st, decode c)
    else if eq_int (item c 3) CMD_RESTORE then
      match cmd_save st with
      | Some saved =>
          let st := {| cmd := Some saved; cmd_save := cmd_save st;
                       do_exit := do_exit st |} in
          (st, decode saved)
      | None => (st, Skip (NoPriorSave c))
      end
    else if eq_int (item c 3) CMD_EXIT then
      let st := {| cmd := cmd st; cmd_save := cmd_save st; do_exit := true |} in
      (st, decode c)
    else (st, Skip (InvalidOption c))
  else (st, decode c).

(** *** Lines 112-171: one turn of the outer loop *)

(** What follows the playback loop, by the way it was left. *)
Definition finish (st : player) (r : trace * world * outcome)
  : trace * status :=
  let '(t, w, o) := r in
  match o with
  | Preempted | Exhausted => (t, Continue st w)
  | Raised => (t ++ [Print (Aborted (cmd st))], Continue st w)
  | Exited => (t, ThreadExit)
  | OutOfFuel => (t, Spinning st w)
  end.

Definition iteration (fuel : nat) (drv : driver) (st : player) (c : command)
    (w : world) : trace * status :=
  let (st', r) := resolve st c in
  match r with
  | Skip m => ([Print m], Continue st' w)
  | Throw => ([Print (Aborted (cmd st'))], Continue st' w)
  | Play period bits rptcnt =>
      finish st' (playback fuel drv (do_exit st') period bits rptcnt w)
  end.

(** *** Lines 107-171: the thread *)

Fixpoint blinky (fuel : nat) (drv : driver) (st : player) (w : world)
  : trace * final :=
  match fuel with
  | O => ([], Running st w)
  | S fuel' =>
      match queue_get w with
      | None => ([], Waiting st)
      | Some (c, w1) =>
          let (t, s) := iteration fuel' drv st c w1 in
          match s with
          | Continue st' w2 =>
              let (t', f) := blinky fuel' drv st' w2 in
              (Get c :: t ++ t', f)
          | ThreadExit => (Get c :: t, Terminated)
          | Spinning st' w2 => (Get c :: t, Running st' w2)
          end
      end
  end.

(** ** Vocabulary of the statements *)

(** A command without option flag, and one with it. *)
Definition plain (p : Z) (s : string) (r : Z) : command :=
  [PInt p; PStr s; PInt r].

Definition flagged (p : Z) (s : string) (r : Z) (flag : Z) : command :=
  [PInt p; PStr s; PInt r; PInt flag].

Definition is_bit (ch : ascii) : bool :=
  (Ascii.eqb ch "0" || Ascii.eqb ch "1")%bool.

(** The bitstream holds only the characters 0 and 1. *)
Definition binary (bits : list ascii) : Prop := forallb is_bit bits = true.

Definition level_of (ch : ascii) : Z := if Ascii.eqb ch "1" then 1 else 0.

(** An int period that [float] converts and [time.sleep] accepts. *)
Definition holdable (p : Z) : Prop :=
  Z.abs p < float_limit /\ sleeps (Ms p) = true.

(** One bit step: the check of the queue, the driver call, the hold. *)
Definition bit_step (drv : driver) (d : delay) (ch : ascii) : trace :=
  [Poll true; pin drv (level_of ch); Hold d].

(** One undisturbed pass: the check at its start, then every bit step. *)
Definition one_pass (drv : driver) (d : delay) (bits : list ascii) : trace :=
  Poll true :: flat_map (bit_step drv d) bits.

Definition passes (n : nat) (drv : driver) (d : delay) (bits : list ascii)
  : trace :=
  List.concat (repeat (one_pass drv d bits) n).

(** The world in which the given commands are queued and no other
    ever arrives. *)
Definition queued (cs : list command) : world :=
  {| queue := cs; arrivals := [] |}.

(** Player after it took [c] as a plain or saving command. *)
Definition took (c : command) (st : player) : player :=
  {| cmd := Some c; cmd_save := cmd_save st; do_exit := do_exit st |}.

(** [len(cmd) == 4 and cmd[3] == k]. *)
Definition has_flag (c : command) (k : Z) : bool :=
  ((len c =? 4) && eq_int (item c 3) k)%bool.

(** The locals after the turn of the outer loop that dequeued [c]; the
    playback loop assigns none of them. *)
Definition after (st : player) (c : command) : player := fst (resolve st c).

(** The driver calls of one pass, and the holds of a trace. *)
Definition levels (drv : driver) (bits : list ascii) : trace :=
  map (fun ch => pin drv (level_of ch)) bits.

Definition holds (t : trace) : trace := filter is_hold t.

(** What a trace goes on with after the first check of the queue that
    found a command. *)
Fixpoint after_break (t : trace) : option trace :=
  match t with
  | [] => None
  | Poll false :: rest => Some rest
  | _ :: rest => after_break rest
  end.

(** Events that neither drive the pin nor hold it. *)
Definition calm (e : event) : Prop := is_pin e = false /\ is_hold e = false.

(** Every driver call of the trace comes directly after a check of the
    queue that found it empty and directly before a hold of [d]. *)
Definition guarded (d : delay) (t : trace) : Prop :=
  forall t1 e t2, t = t1 ++ e :: t2 -> is_pin e = true ->
    (exists t0, t1 = t0 ++ [Poll true]) /\ (exists t3, t2 = Hold d :: t3).

(** No batch of a schedule of arrivals holds a command. *)
Definition silent (arr : list (list command)) : Prop :=
  Forall (fun b => b = []) arr.

(** ** Construction of an instance (lines 73-96) *)

(** The driver calls of [__init__]. *)
Inductive setup_call : Type :=
| SetModeOutput        (* [driver.set_mode(gpio_num, pigpio.OUTPUT)] *)
| WriteLow             (* [driver.write(gpio_num, 0)] *)
| SetWarningsOff       (* [GPIO.setwarnings(False)] *)
| SetModeBCM           (* [GPIO.setmode(GPIO.BCM)] *)
| SetupOutLow          (* [GPIO.setup(gpio_num, GPIO.OUT, initial=GPIO.LOW)] *)
| OutputDeviceLow      (* [gpiozero.OutputDevice(gpio_num, active_high=True,
                           initial_value=False)] *)
| PrintUnknownDriver.  (* "Unknown driver mode.  Aborting." *)

(** The two attributes that only some branches of [__init__] assign. *)
Inductive attribute : Type :=
| GPIO_instance
| gpiozero_instance.

(** [__init__]: the calls made, and the backend attributes assigned;
    [None] when [sys.exit()] is reached. *)
Definition init (drv : driver) : list setup_call * option (list attribute) :=
  match drv with
  | PigpioHandle => ([SetModeOutput; WriteLow], Some [])
  | DriverCode d =>
      if d =? DRIVER_RPIGPIO
      then ([SetWarningsOff; SetModeBCM; SetupOutLow], Some [GPIO_instance])
      else if d =? DRIVER_GPIOZERO
      then ([OutputDeviceLow], Some [gpiozero_instance])
      else ([PrintUnknownDriver], None)
  end.

(** The attributes read by lines 153-158 and by lines 163-164. *)
Definition pin_reads (drv : driver) : list attribute :=
  match drv with
  | PigpioHandle => []
  | DriverCode d =>
      if d =? DRIVER_RPIGPIO then [GPIO_instance] else [gpiozero_instance]
  end.

Definition close_reads (drv : driver) : list attribute :=
  match drv with
  | PigpioHandle => []
  | DriverCode d => if d =? DRIVER_GPIOZERO then [gpiozero_instance] else []
  end.

(** ** Further vocabulary *)

(** Every command pushed and not yet taken, in the order of pushing. *)
Definition pending (w : world) : list command :=
  queue w ++ List.concat (arrivals w).

(** The commands a trace dequeues, in order. *)
Fixpoint gets (t : trace) : list command :=
  match t with
  | [] => []
  | Get c :: rest => c :: gets rest
  | _ :: rest => gets rest
  end.

Definition prefix {A : Type} (a b : list A) : Prop := exists rest, b = a ++ rest.

(** The console reports of a trace. *)
Fixpoint reports (t : trace) : list report :=
  match t with
  | [] => []
  | Print m :: rest => m :: reports rest
  | _ :: rest => reports rest
  end.

(** ** Basic facts *)

Lemma quiet_absorb (w : world) : quiet w -> quiet (absorb w).
Proof.
  intros [Hq Ha]. unfold quiet, absorb; simpl.
  destruct (arrivals w) as [|b arr]; simpl.
  - rewrite Hq. split; [reflexivity | constructor].
  - inversion Ha; subst. rewrite Hq. split; [reflexivity | assumption].
Qed.

Lemma queue_empty_quiet (w : world) :
  quiet w -> queue_empty w = (true, absorb w).
Proof.
  intros H. unfold queue_empty.
  destruct (quiet_absorb w H) as [Hq _]. rewrite Hq. reflexivity.
Qed.

Lemma queue_get_quiet (w : world) : quiet w -> queue_get w = None.
Proof.
  intros [Hq Ha]. unfold queue_get. rewrite Hq. clear Hq.
  induction Ha as [|b arr Hb _ IH]; simpl; [reflexivity|].
  subst b. exact IH.
Qed.

Lemma quiet_queued_nil : quiet (queued []).
Proof. split; [reflexivity | constructor]. Qed.

Lemma int_of_char_bit (ch : ascii) :
  is_bit ch = true -> int_of_char ch = Some (level_of ch).
Proof.
  unfold is_bit, level_of. intros H.
  apply orb_true_iff in H. destruct H as [H | H];
    apply Ascii.eqb_eq in H; subst ch; reflexivity.
Qed.

Lemma binary_cons (ch : ascii) (bits : list ascii) :
  binary (ch :: bits) -> is_bit ch = true /\ binary bits.
Proof. unfold binary; simpl. intros H. apply andb_true_iff in H. exact H. Qed.


Lemma holdable_nonneg (p : Z) : holdable p -> 0 <= p.
Proof.
  intros [_ H]. unfold sleeps in H. apply andb_true_iff in H.
  destruct H as [H _]. apply Z.leb_le. exact H.
Qed.

Lemma py_float_int (p : Z) :
  Z.abs p < float_limit -> py_float (PInt p) = Some (Ms p).
Proof.
  intros H. unfold py_float.
  assert (E : (Z.abs p <? float_limit) = true) by (apply Z.ltb_lt; exact H).
  rewrite E. reflexivity.
Qed.


(** An undisturbed pass over a well-formed bitstream. *)
Lemma play_bits_quiet (drv : driver) (d : delay) (bits : list ascii) :
  sleeps d = true -> binary bits ->
  forall w, quiet w ->
  exists w', play_bits drv d bits w = (flat_map (bit_step drv d) bits, w', Finished)
             /\ quiet w'.
Proof.
  intros Hd. induction bits as [|ch rest IH]; intros Hb w Hw.
  - exists w. split; [reflexivity | assumption].
  - apply binary_cons in Hb. destruct Hb as [Hch Hrest].
    destruct (IH Hrest (absorb w) (quiet_absorb w Hw)) as [w' [E Hw']].
    exists w'. split; [|assumption].
    cbn [play_bits]. rewrite (queue_empty_quiet w Hw). cbn [negb].
    rewrite (int_of_char_bit ch Hch), Hd, E. reflexivity.
Qed.

(** *** The playback loop in a quiet world *)

Lemma passes_S (n : nat) (drv : driver) (d : delay) (bits : list ascii) :
  passes (S n) drv d bits = one_pass drv d bits ++ passes n drv d bits.
Proof. reflexivity. Qed.

Lemma playback_S (fuel : nat) (drv : driver) (ex : bool) (d : delay)
    (bits : list ascii) (r : Z) (w : world) :
  playback (S fuel) drv ex d bits r w
  = let (empty, w1) := queue_empty w in
    if negb empty then ([Poll false], w1, Preempted)
    else
      let '(t, w2, e) := play_bits drv d bits w1 in
      match e with
      | Threw => (Poll true :: t, w2, Raised)
      | Finished =>
          if ex then (Poll true :: t ++ close drv, w2, Exited)
          else if 0 <? r then
            if r - 1 =? 0 then (Poll true :: t, w2, Exhausted)
            else
              let '(t', w3, o) := playback fuel drv ex d bits (r - 1) w2 in
              (Poll true :: t ++ t', w3, o)
          else
            let '(t', w3, o) := playback fuel drv ex d bits r w2 in
            (Poll true :: t ++ t', w3, o)
      end.
Proof. reflexivity. Qed.

(** A positive count [n] is used up after exactly [n] passes. *)
Lemma playback_counted (drv : driver) (d : delay) (bits : list ascii) :
  sleeps d = true -> binary bits ->
  forall (n fuel : nat) (w : world),
    (n < fuel)%nat -> quiet w ->
    exists w',
      playback fuel drv false d bits (Z.of_nat (S n)) w
      = (passes (S n) drv d bits, w', Exhausted) /\ quiet w'.
Proof.
  intros Hd Hb. induction n as [|n IH]; intros fuel w Hf Hw.
  - destruct fuel as [|fuel]; [lia|].
    destruct (play_bits_quiet drv d bits Hd Hb (absorb w) (quiet_absorb w Hw))
      as [w' [E Hw']].
    exists w'. split; [|assumption].
    cbn [playback]. rewrite (queue_empty_quiet w Hw). cbn [negb].
    rewrite E. cbn. rewrite app_nil_r. reflexivity.
  - destruct fuel as [|fuel]; [lia|].
    destruct (play_bits_quiet drv d bits Hd Hb (absorb w) (quiet_absorb w Hw))
      as [w1 [E Hw1]].
    destruct (IH fuel w1 ltac:(lia) Hw1) as [w' [E' Hw']].
    exists w'. split; [|assumption].
    cbn [playback]. rewrite (queue_empty_quiet w Hw). cbn [negb].
    rewrite E.
    assert (H1 : (0 <? Z.of_nat (S (S n))) = true) by (apply Z.ltb_lt; lia).
    assert (H2 : (Z.of_nat (S (S n)) - 1 =? 0) = false) by (apply Z.eqb_neq; lia).
    rewrite H1, H2.
    replace (Z.of_nat (S (S n)) - 1) with (Z.of_nat (S n)) by lia.
    rewrite E'. rewrite (passes_S (S n)). reflexivity.
Qed.

(** A count that is not positive is never used up: every pass of the
    budget is played. *)
Lemma playback_unbounded (drv : driver) (d : delay) (bits : list ascii) (r : Z) :
  sleeps d = true -> binary bits -> r <= 0 ->
  forall (fuel : nat) (w : world),
    quiet w ->
    exists w',
      playback fuel drv false d bits r w
      = (passes fuel drv d bits, w', OutOfFuel) /\ quiet w'.
Proof.
  intros Hd Hb Hr. induction fuel as [|fuel IH]; intros w Hw.
  - exists w. split; [reflexivity | assumption].
  - destruct (play_bits_quiet drv d bits Hd Hb (absorb w) (quiet_absorb w Hw))
      as [w1 [E Hw1]].
    destruct (IH w1 Hw1) as [w' [E' Hw']].
    exists w'. split; [|assumption].
    cbn [playback]. rewrite (queue_empty_quiet w Hw). cbn [negb].
    rewrite E.
    assert (H1 : (0 <? r) = false) by (apply Z.ltb_ge; exact Hr).
    rewrite H1, E'. rewrite passes_S. reflexivity.
Qed.

(** Counts that are not positive are all treated alike (lines 166-169
    test [rptcnt > 0] only). *)
Lemma playback_nonpositive (drv : driver) (ex : bool) (d : delay)
    (bits : list ascii) (r : Z) :
  r <= 0 ->
  forall (fuel : nat) (w : world),
    playback fuel drv ex d bits r w = playback fuel drv ex d bits (-1) w.
Proof.
  intros Hr. induction fuel as [|fuel IH]; intros w; [reflexivity|].
  cbn [playback].
  destruct (queue_empty w) as [empty w1].
  destruct (negb empty); [reflexivity|].
  destruct (play_bits drv d bits w1) as [[t w2] e].
  destruct e; [|reflexivity].
  destruct ex; [reflexivity|].
  assert (H1 : (0 <? r) = false) by (apply Z.ltb_ge; exact Hr).
  rewrite H1. cbn [Z.ltb Z.compare]. rewrite IH. reflexivity.
Qed.

(** With the exit flag set the first pass is the last. *)
Lemma playback_exiting (drv : driver) (d : delay) (bits : list ascii) (r : Z) :
  sleeps d = true -> binary bits ->
  forall (fuel : nat) (w : world),
    quiet w ->
    exists w',
      playback (S fuel) drv true d bits r w
      = (one_pass drv d bits ++ close drv, w', Exited) /\ quiet w'.
Proof.
  intros Hd Hb fuel w Hw.
  destruct (play_bits_quiet drv d bits Hd Hb (absorb w) (quiet_absorb w Hw))
    as [w1 [E Hw1]].
  exists w1. split; [|assumption].
  cbn [playback]. rewrite (queue_empty_quiet w Hw). cbn [negb].
  rewrite E. reflexivity.
Qed.

(** *** Decoding *)

Lemma decode_plain (p : Z) (s : string) (r : Z) :
  Z.abs p < float_limit ->
  decode (plain p s r) = Play (Ms p) (list_ascii_of_string s) r.
Proof.
  intros H. unfold decode, plain, item. cbn [len List.length nth].
  rewrite (py_float_int p H). reflexivity.
Qed.

Lemma decode_flagged (p : Z) (s : string) (r flag : Z) :
  Z.abs p < float_limit ->
  decode (flagged p s r flag) = Play (Ms p) (list_ascii_of_string s) r.
Proof.
  intros H. unfold decode, flagged, item. cbn [len List.length nth].
  rewrite (py_float_int p H). reflexivity.
Qed.

Lemma resolve_plain (st : player) (p : Z) (s : string) (r : Z) :
  Z.abs p < float_limit ->
  resolve st (plain p s r)
  = (took (plain p s r) st, Play (Ms p) (list_ascii_of_string s) r).
Proof.
  intros H. unfold resolve.
  change (len (plain p s r) =? 4) with false. cbv iota.
  rewrite (decode_plain p s r H). reflexivity.
Qed.

Lemma iteration_plain (fuel : nat) (drv : driver) (st : player)
    (p : Z) (s : string) (r : Z) (w : world) :
  Z.abs p < float_limit ->
  iteration fuel drv st (plain p s r) w
  = finish (took (plain p s r) st)
      (playback fuel drv (do_exit st) (Ms p) (list_ascii_of_string s) r w).
Proof.
  intros H. unfold iteration. rewrite (resolve_plain st p s r H). reflexivity.
Qed.

(** *** Driver calls and holds of undisturbed passes *)

Lemma is_pin_pin (drv : driver) (l : Z) : is_pin (pin drv l) = true.
Proof.
  destruct drv as [|d]; simpl; [reflexivity|].
  destruct (d =? DRIVER_RPIGPIO); [reflexivity|].
  destruct (l =? 0); reflexivity.
Qed.

Lemma is_hold_pin (drv : driver) (l : Z) : is_hold (pin drv l) = false.
Proof.
  destruct drv as [|d]; simpl; [reflexivity|].
  destruct (d =? DRIVER_RPIGPIO); [reflexivity|].
  destruct (l =? 0); reflexivity.
Qed.

Lemma pin_writes_one_pass (drv : driver) (d : delay) (bits : list ascii) :
  pin_writes (one_pass drv d bits) = levels drv bits.
Proof.
  unfold pin_writes, one_pass, levels. cbn [filter is_pin].
  induction bits as [|ch rest IH]; [reflexivity|].
  cbn [flat_map bit_step app filter map is_pin].
  rewrite is_pin_pin, IH. reflexivity.
Qed.

Lemma holds_one_pass (drv : driver) (d : delay) (bits : list ascii) :
  holds (one_pass drv d bits) = repeat (Hold d) (List.length bits).
Proof.
  unfold holds, one_pass. cbn [filter is_hold].
  induction bits as [|ch rest IH]; [reflexivity|].
  cbn [flat_map bit_step app filter is_hold List.length repeat].
  rewrite is_hold_pin, IH. reflexivity.
Qed.

Lemma pin_writes_passes (n : nat) (drv : driver) (d : delay) (bits : list ascii) :
  pin_writes (passes n drv d bits) = List.concat (repeat (levels drv bits) n).
Proof.
  induction n as [|n IH]; [reflexivity|].
  rewrite passes_S. unfold pin_writes in *. rewrite filter_app.
  fold (pin_writes (one_pass drv d bits)).
  rewrite pin_writes_one_pass, IH. reflexivity.
Qed.

Lemma holds_passes (n : nat) (drv : driver) (d : delay) (bits : list ascii) :
  holds (passes n drv d bits) = repeat (Hold d) (n * List.length bits).
Proof.
  induction n as [|n IH]; [reflexivity|].
  rewrite passes_S. unfold holds in *. rewrite filter_app.
  fold (holds (one_pass drv d bits)).
  rewrite holds_one_pass, IH. cbn [Nat.mul]. rewrite repeat_app. reflexivity.
Qed.

Lemma quiet_silent (arr : list (list command)) :
  silent arr -> quiet {| queue := []; arrivals := arr |}.
Proof. intros H. split; [reflexivity | exact H]. Qed.

Lemma queue_get_cons (c : command) (q : list command)
    (arr : list (list command)) :
  queue_get {| queue := c :: q; arrivals := arr |}
  = Some (c, {| queue := q; arrivals := arr |}).
Proof. unfold queue_get; simpl. destruct arr; reflexivity. Qed.

(** *** How the playback loop can be left *)

Lemma play_bits_no_throw (drv : driver) (d : delay) (bits : list ascii) :
  sleeps d = true -> binary bits ->
  forall w, snd (play_bits drv d bits w) = Finished.
Proof.
  intros Hp. induction bits as [|ch rest IH]; intros Hb w; [reflexivity|].
  apply binary_cons in Hb. destruct Hb as [Hch Hrest].
  cbn [play_bits]. unfold queue_empty.
  destruct (negb (is_nil (queue (absorb w)))); [reflexivity|].
  rewrite (int_of_char_bit ch Hch).
  rewrite Hp. specialize (IH Hrest (absorb w)).
  destruct (play_bits drv d rest (absorb w)) as [[t w2] e]. exact IH.
Qed.

Lemma is_nil_false {A : Type} (l : list A) : is_nil l = false -> l <> [].
Proof. destruct l; [discriminate | intros _ H; discriminate H]. Qed.

(** Each way out of the loop has its cause: a pending command, a
    positive count run down, the exit flag. *)
Lemma playback_outcome (drv : driver) (ex : bool) (d : delay) (bits : list ascii) :
  sleeps d = true -> binary bits ->
  forall (fuel : nat) (r : Z) (w : world) t w' o,
    playback fuel drv ex d bits r w = (t, w', o) ->
    match o with
    | Preempted => queue w' <> []
    | Exhausted => ex = false /\ 0 < r
    | Exited => ex = true
    | Raised => False
    | OutOfFuel => True
    end.
Proof.
  intros Hp Hb. induction fuel as [|fuel IH]; intros r w t w' o E.
  - cbn in E. inversion E; subst. exact I.
  - cbn [playback] in E. unfold queue_empty in E.
    destruct (is_nil (queue (absorb w))) eqn:Hnil; cbn [negb] in E.
    2:{ inversion E; subst. apply is_nil_false. exact Hnil. }
    pose proof (play_bits_no_throw drv d bits Hp Hb (absorb w)) as Hfin.
    destruct (play_bits drv d bits (absorb w)) as [[t1 w2] e].
    cbn in Hfin. subst e.
    destruct ex.
    { inversion E; subst. reflexivity. }
    destruct (0 <? r) eqn:Hr.
    + apply Z.ltb_lt in Hr.
      destruct (r - 1 =? 0).
      * inversion E; subst. split; [reflexivity | exact Hr].
      * destruct (playback fuel drv false d bits (r - 1) w2) as [[t2 w3] o2] eqn:E2.
        inversion E; subst. specialize (IH _ _ _ _ _ E2).
        destruct o; try exact IH. destruct IH as [_ IH]. split; [reflexivity | lia].
    + apply Z.ltb_ge in Hr.
      destruct (playback fuel drv false d bits r w2) as [[t2 w3] o2] eqn:E2.
      inversion E; subst. specialize (IH _ _ _ _ _ E2).
      exact IH.
Qed.

(** ** Save and restore *)

Lemma has_flag_true (c : command) (k : Z) :
  has_flag c k = true -> (len c =? 4) = true /\ eq_int (item c 3) k = true.
Proof. unfold has_flag. intros H. apply andb_true_iff in H. exact H. Qed.

Lemma eq_int_true (v : pyval) (k : Z) : eq_int v k = true -> v = PInt k.
Proof.
  destruct v as [z|s]; simpl; [|discriminate].
  intros H. apply Z.eqb_eq in H. subst. reflexivity.
Qed.

(** A saving command: the prior command goes to the save slot and the
    command's own items are decoded. *)
Lemma resolve_save (st : player) (c : command) :
  has_flag c CMD_SAVE = true ->
  resolve st c
  = ({| cmd := Some c; cmd_save := cmd st; do_exit := do_exit st |}, decode c).
Proof.
  intros H. apply has_flag_true in H. destruct H as [Hl Hf].
  unfold resolve. rewrite Hl, Hf. reflexivity.
Qed.

(** A restoring command with something saved: the saved command takes
    its place and is decoded. *)
Lemma resolve_restore (st : player) (c saved : command) :
  has_flag c CMD_RESTORE = true -> cmd_save st = Some saved ->
  resolve st c
  = ({| cmd := Some saved; cmd_save := Some saved; do_exit := do_exit st |},
     decode saved).
Proof.
  intros H Hs. apply has_flag_true in H. destruct H as [Hl Hf].
  apply eq_int_true in Hf.
  unfold resolve. rewrite Hl, Hf. cbn. rewrite Hs. reflexivity.
Qed.

(** A restoring command with nothing saved. *)
Lemma resolve_restore_empty (st : player) (c : command) :
  has_flag c CMD_RESTORE = true -> cmd_save st = None ->
  resolve st c
  = ({| cmd := Some c; cmd_save := None; do_exit := do_exit st |},
     Skip (NoPriorSave c)).
Proof.
  intros H Hs. apply has_flag_true in H. destruct H as [Hl Hf].
  apply eq_int_true in Hf.
  unfold resolve. rewrite Hl, Hf. cbn. rewrite Hs. reflexivity.
Qed.

(** Any command but a restoring one becomes [cmd] when dequeued. *)
Lemma after_cmd (st : player) (c : command) :
  has_flag c CMD_RESTORE = false -> cmd (after st c) = Some c.
Proof.
  unfold has_flag, after, resolve. intros H.
  destruct (len c =? 4); [|reflexivity].
  cbn [andb] in H. rewrite H.
  destruct (eq_int (item c 3) CMD_SAVE); [reflexivity|].
  destruct (eq_int (item c 3) CMD_EXIT); reflexivity.
Qed.

(** Restoring commands leave a filled save slot as it is. *)
Lemma after_restores (saved : command) (rs : list command) :
  Forall (fun c => has_flag c CMD_RESTORE = true) rs ->
  forall st, cmd_save st = Some saved ->
  cmd_save (fold_left after rs st) = Some saved.
Proof.
  induction 1 as [|c rs Hc _ IH]; intros st Hs; [exact Hs|].
  cbn [fold_left]. apply IH.
  unfold after. rewrite (resolve_restore st c saved Hc Hs). reflexivity.
Qed.

Lemma has_flag_false_at (c : command) (k : Z) :
  (len c =? 4) = true -> has_flag c k = false -> eq_int (item c 3) k = false.
Proof. unfold has_flag. intros Hl H. rewrite Hl in H. exact H. Qed.

(** The exit flag after a turn (see X3). *)
Lemma do_exit_after (st : player) (c : command) :
  do_exit (after st c) = (do_exit st || has_flag c CMD_EXIT)%bool.
Proof.
  unfold has_flag, after, resolve.
  destruct (len c =? 4); [|cbn; rewrite orb_false_r; reflexivity].
  cbn [andb].
  destruct (eq_int (item c 3) CMD_SAVE) eqn:Hs.
  { apply eq_int_true in Hs. rewrite Hs. cbn. rewrite orb_false_r. reflexivity. }
  destruct (eq_int (item c 3) CMD_RESTORE) eqn:Hr.
  { apply eq_int_true in Hr. rewrite Hr.
    cbn [cmd_save]. destruct (cmd_save st); cbn; rewrite orb_false_r; reflexivity. }
  destruct (eq_int (item c 3) CMD_EXIT).
  - cbn. rewrite orb_true_r. reflexivity.
  - cbn. rewrite orb_false_r. reflexivity.
Qed.

(** ** Preemption *)

(** *** Driver calls are guarded by a check and followed by the hold *)

Lemma guarded_nil (d : delay) : guarded d [].
Proof.
  intros t1 e t2 E _. exfalso. exact (app_cons_not_nil t1 t2 e E).
Qed.

Lemma guarded_calm (d : delay) (t : trace) :
  Forall (fun e => is_pin e = false) t -> guarded d t.
Proof.
  intros H t1 e t2 E He. subst t.
  apply Forall_app in H. destruct H as [_ H].
  inversion H; subst. congruence.
Qed.

Lemma guarded_app (d : delay) (a b : trace) :
  guarded d a -> guarded d b -> guarded d (a ++ b).
Proof.
  intros Ha Hb t1 e t2 E He.
  apply app_eq_app in E. destruct E as [l [[E1 E2] | [E1 E2]]].
  - destruct l as [|e' l'].
    + cbn in E2. rewrite app_nil_r in E1. subst a.
      destruct (Hb [] e t2 (eq_sym E2) He) as [[t0 H0] _].
      exfalso. exact (app_cons_not_nil t0 [] (Poll true) H0).
    + cbn in E2. injection E2 as -> ->.
      destruct (Ha t1 e' l' E1 He) as [H1 [t3 H3]].
      split; [exact H1|]. exists (t3 ++ b). rewrite H3. reflexivity.
  - destruct (Hb l e t2 E2 He) as [[t0 H0] H2].
    split; [|exact H2]. exists (a ++ t0). rewrite E1, H0.
    apply app_assoc.
Qed.

Lemma guarded_bit_step (drv : driver) (d : delay) (l : Z) :
  guarded d [Poll true; pin drv l; Hold d].
Proof.
  intros t1 e t2 E He.
  destruct t1 as [|a [|b [|c t1]]]; cbn in E.
  - injection E as <- _. discriminate He.
  - injection E as <- <- <-. split; [exists []; reflexivity | exists []; reflexivity].
  - injection E as _ _ <- _. discriminate He.
  - injection E as _ _ _ E. exfalso. exact (app_cons_not_nil t1 t2 e E).
Qed.

Lemma guarded_poll (d : delay) (b : bool) (t : trace) :
  guarded d t -> guarded d (Poll b :: t).
Proof.
  intros H. apply (guarded_app d [Poll b] t); [|exact H].
  apply guarded_calm. repeat constructor.
Qed.

Lemma close_calm (drv : driver) : Forall calm (close drv).
Proof.
  destruct drv as [|dc]; cbn; [constructor|].
  destruct (dc =? DRIVER_GPIOZERO); repeat constructor.
Qed.

Lemma guarded_close (d : delay) (drv : driver) : guarded d (close drv).
Proof.
  apply guarded_calm. eapply Forall_impl; [|apply close_calm].
  intros e [H _]. exact H.
Qed.

Lemma play_bits_guarded (drv : driver) (d : delay) (bits : list ascii) :
  sleeps d = true -> forall w, guarded d (fst (fst (play_bits drv d bits w))).
Proof.
  intros Hp. induction bits as [|ch rest IH]; intros w; [apply guarded_nil|].
  cbn [play_bits]. destruct (queue_empty w) as [empty w1].
  destruct (negb empty).
  { apply guarded_calm. repeat constructor. }
  destruct (int_of_char ch) as [level|].
  2:{ apply guarded_calm. repeat constructor. }
  rewrite Hp. specialize (IH w1).
  destruct (play_bits drv d rest w1) as [[t w2] e]. cbn [fst] in *.
  apply (guarded_app d [Poll true; pin drv level; Hold d] t);
    [apply guarded_bit_step | exact IH].
Qed.

Lemma playback_guarded (drv : driver) (ex : bool) (d : delay) (bits : list ascii) :
  sleeps d = true ->
  forall (fuel : nat) (r : Z) (w : world),
    guarded d (fst (fst (playback fuel drv ex d bits r w))).
Proof.
  intros Hp. induction fuel as [|fuel IH]; intros r w; [apply guarded_nil|].
  cbn [playback]. destruct (queue_empty w) as [empty w1].
  destruct (negb empty).
  { apply guarded_calm. repeat constructor. }
  pose proof (play_bits_guarded drv d bits Hp w1) as Hg.
  destruct (play_bits drv d bits w1) as [[t w2] e]. cbn [fst] in Hg.
  destruct e; [|apply guarded_poll; exact Hg].
  destruct ex.
  { cbn [fst]. apply guarded_poll, guarded_app; [exact Hg | apply guarded_close]. }
  destruct (0 <? r).
  - destruct (r - 1 =? 0); [apply guarded_poll; exact Hg|].
    specialize (IH (r - 1) w2).
    destruct (playback fuel drv false d bits (r - 1) w2) as [[t' w3] o].
    cbn [fst] in *. apply guarded_poll, guarded_app; assumption.
  - specialize (IH r w2).
    destruct (playback fuel drv false d bits r w2) as [[t' w3] o].
    cbn [fst] in *. apply guarded_poll, guarded_app; assumption.
Qed.

(** *** Nothing is driven after a check that found a command *)

Lemma after_break_app (a b : trace) :
  after_break (a ++ b)
  = match after_break a with
    | Some x => Some (x ++ b)
    | None => after_break b
    end.
Proof.
  induction a as [|e a IH]; [reflexivity|].
  destruct e as [c|[|]| | | | | |m]; cbn [app after_break]; try exact IH.
  reflexivity.
Qed.

Lemma after_break_pin (drv : driver) (l : Z) (t : trace) :
  after_break (pin drv l :: t) = after_break t.
Proof.
  destruct drv as [|dc]; cbn; [reflexivity|].
  destruct (dc =? DRIVER_RPIGPIO); [reflexivity|].
  destruct (l =? 0); reflexivity.
Qed.

Lemma after_break_poll (t : trace) :
  after_break (Poll true :: t) = after_break t.
Proof. reflexivity. Qed.

Lemma after_break_hold (d : delay) (t : trace) :
  after_break (Hold d :: t) = after_break t.
Proof. reflexivity. Qed.

Lemma after_break_split (t1 t2 : trace) :
  exists pre, after_break (t1 ++ Poll false :: t2) = Some (pre ++ t2).
Proof.
  induction t1 as [|e t1 [pre IH]].
  - exists []. reflexivity.
  - destruct e as [c|[|]| | | | | |m]; cbn [app after_break];
      try (exists pre; exact IH).
    exists (t1 ++ [Poll false]). rewrite <- app_assoc. reflexivity.
Qed.

Lemma after_break_close (drv : driver) : after_break (close drv) = None.
Proof.
  destruct drv as [|dc]; cbn; [reflexivity|].
  destruct (dc =? DRIVER_GPIOZERO); reflexivity.
Qed.

(** A pass either meets no pending command, or ends at the check that
    found one, with that command still queued. *)
Lemma play_bits_break (drv : driver) (d : delay) (bits : list ascii) :
  forall w t w' e,
    play_bits drv d bits w = (t, w', e) ->
    after_break t = None
    \/ (after_break t = Some [] /\ queue w' <> [] /\ e = Finished).
Proof.
  induction bits as [|ch rest IH]; intros w t w' e E.
  - cbn in E. injection E as <- _ _. left. reflexivity.
  - cbn [play_bits] in E. unfold queue_empty in E.
    destruct (is_nil (queue (absorb w))) eqn:Hnil; cbn [negb] in E.
    2:{ injection E as <- <- <-. right.
        split; [reflexivity|]. split; [|reflexivity].
        apply is_nil_false. exact Hnil. }
    destruct (int_of_char ch) as [level|].
    2:{ injection E as <- _ _. left. reflexivity. }
    destruct (sleeps d).
    2:{ injection E as <- _ _. left.
      rewrite after_break_poll, after_break_pin. reflexivity. }
    destruct (play_bits drv d rest (absorb w)) as [[t1 w2] e1] eqn:E1.
    injection E as <- <- <-.
    rewrite after_break_poll, after_break_pin, after_break_hold.
    exact (IH _ _ _ _ E1).
Qed.

Lemma absorb_busy (w : world) : queue w <> [] -> queue (absorb w) <> [].
Proof.
  unfold absorb; cbn. intros H E. apply app_eq_nil in E. destruct E as [E _].
  contradiction.
Qed.

Lemma is_nil_busy (w : world) : queue w <> [] -> is_nil (queue (absorb w)) = false.
Proof.
  intros H. apply absorb_busy in H.
  destruct (queue (absorb w)); [contradiction | reflexivity].
Qed.

(** With a command pending, the loop is left at its first check. *)
Lemma playback_busy (fuel : nat) (drv : driver) (ex : bool) (d : delay)
    (bits : list ascii) (r : Z) (w : world) :
  queue w <> [] ->
  playback (S fuel) drv ex d bits r w = ([Poll false], absorb w, Preempted).
Proof.
  intros H. cbn [playback]. unfold queue_empty.
  rewrite (is_nil_busy w H). reflexivity.
Qed.

Lemma playback_busy_calm (fuel : nat) (drv : driver) (ex : bool) (d : delay)
    (bits : list ascii) (r : Z) (w : world) :
  queue w <> [] -> Forall calm (fst (fst (playback fuel drv ex d bits r w))).
Proof.
  intros H. destruct fuel as [|fuel]; [constructor|].
  rewrite (playback_busy fuel drv ex d bits r w H).
  repeat constructor.
Qed.

Lemma playback_after_break (drv : driver) (ex : bool) (d : delay) (bits : list ascii) :
  forall (fuel : nat) (r : Z) (w : world) (t2 : trace),
    after_break (fst (fst (playback fuel drv ex d bits r w))) = Some t2 ->
    Forall calm t2.
Proof.
  induction fuel as [|fuel IH]; intros r w t2 E; [discriminate E|].
  cbn [playback] in E. unfold queue_empty in E.
  destruct (is_nil (queue (absorb w))) eqn:Hnil; cbn [negb] in E.
  2:{ cbn in E. injection E as <-. constructor. }
  destruct (play_bits drv d bits (absorb w)) as [[t w2] e] eqn:Eb.
  pose proof (play_bits_break drv d bits _ _ _ _ Eb) as Hb.
  assert (Hrest : forall (rest : trace) (w3 : world) (o : outcome),
             (after_break t = None -> after_break rest = Some t2 -> Forall calm t2) ->
             (queue w2 <> [] -> Forall calm rest) ->
             after_break (fst (fst (Poll true :: t ++ rest, w3, o))) = Some t2 ->
             Forall calm t2).
  { intros rest w3 o Hnone Hbusy E'. cbn [fst after_break] in E'.
    rewrite after_break_app in E'.
    destruct Hb as [Hb | [Hb [Hq _]]]; rewrite Hb in E'.
    - exact (Hnone Hb E').
    - injection E' as <-. exact (Hbusy Hq). }
  destruct e.
  2:{ cbn [fst after_break] in E.
      destruct Hb as [Hb | [_ [_ Hb]]]; [|discriminate Hb].
      rewrite Hb in E. discriminate E. }
  destruct ex.
  { apply (Hrest (close drv) w2 Exited); [| |exact E].
    - intros _ Hc. rewrite after_break_close in Hc. discriminate Hc.
    - intros _. apply close_calm. }
  destruct (0 <? r).
  - destruct (r - 1 =? 0).
    + apply (Hrest [] w2 Exhausted).
      * intros _ Hc. discriminate Hc.
      * intros _. constructor.
      * rewrite app_nil_r. exact E.
    + pose proof (IH (r - 1) w2) as IH'.
      pose proof (playback_busy_calm fuel drv false d bits (r - 1) w2) as Hbz.
      destruct (playback fuel drv false d bits (r - 1) w2) as [[t' w3] o].
      cbn [fst] in IH', Hbz.
      apply (Hrest t' w3 o); [| exact Hbz | exact E].
      intros _ Hc. exact (IH' t2 Hc).
  - pose proof (IH r w2) as IH'.
    pose proof (playback_busy_calm fuel drv false d bits r w2) as Hbz.
    destruct (playback fuel drv false d bits r w2) as [[t' w3] o].
    cbn [fst] in IH', Hbz.
    apply (Hrest t' w3 o); [| exact Hbz | exact E].
    intros _ Hc. exact (IH' t2 Hc).
Qed.

Lemma calm_no_writes (t : trace) :
  Forall calm t -> pin_writes t = [] /\ holds t = [].
Proof.
  induction 1 as [|e t [Hp Hh] _ [IH1 IH2]]; [split; reflexivity|].
  unfold pin_writes, holds in *. cbn [filter]. rewrite Hp, Hh. split; assumption.
Qed.

(** Each pass and each bit step opens with a look at the queue. *)
Lemma playback_starts_with_check (fuel : nat) (drv : driver) (ex : bool)
    (d : delay) (bits : list ascii) (r : Z) (w : world) :
  exists t',
    fst (fst (playback (S fuel) drv ex d bits r w))
    = Poll (is_nil (queue (absorb w))) :: t'.
Proof.
  cbn [playback]. unfold queue_empty.
  destruct (is_nil (queue (absorb w))); cbn [negb].
  2:{ exists []. reflexivity. }
  destruct (play_bits drv d bits (absorb w)) as [[t w2] e].
  destruct e; [|exists t; reflexivity].
  destruct ex; [exists (t ++ close drv); reflexivity|].
  destruct (0 <? r).
  - destruct (r - 1 =? 0); [exists t; reflexivity|].
    destruct (playback fuel drv false d bits (r - 1) w2) as [[t' w3] o].
    exists (t ++ t'). reflexivity.
  - destruct (playback fuel drv false d bits r w2) as [[t' w3] o].
    exists (t ++ t'). reflexivity.
Qed.

Lemma play_bits_starts_with_check (drv : driver) (d : delay) (ch : ascii)
    (rest : list ascii) (w : world) :
  exists t',
    fst (fst (play_bits drv d (ch :: rest) w))
    = Poll (is_nil (queue (absorb w))) :: t'.
Proof.
  cbn [play_bits]. unfold queue_empty.
  destruct (is_nil (queue (absorb w))); cbn [negb].
  2:{ exists []. reflexivity. }
  destruct (int_of_char ch) as [level|]; [|exists []; reflexivity].
  destruct (sleeps d); [|exists [pin drv level]; reflexivity].
  destruct (play_bits drv d rest (absorb w)) as [[t w2] e].
  exists (pin drv level :: Hold d :: t). reflexivity.
Qed.

(** ** The budget only cuts runs short *)

(** A playback loop that was left within some budget is left in the
    same way within any larger one. *)
Lemma playback_more_fuel (drv : driver) (ex : bool) (d : delay) (bits : list ascii) :
  forall (fuel : nat) (r : Z) (w : world) t w' o,
    playback fuel drv ex d bits r w = (t, w', o) -> o <> OutOfFuel ->
    playback (S fuel) drv ex d bits r w = (t, w', o).
Proof.
  induction fuel as [|fuel IH]; intros r w t w' o E Ho.
  - cbn in E. injection E as _ _ <-. contradiction.
  - rewrite playback_S in E. rewrite playback_S.
    destruct (queue_empty w) as [empty w1].
    destruct (negb empty); [exact E|].
    destruct (play_bits drv d bits w1) as [[t1 w2] e].
    destruct e; [|exact E].
    destruct ex; [exact E|].
    destruct (0 <? r).
    + destruct (r - 1 =? 0); [exact E|].
      destruct (playback fuel drv false d bits (r - 1) w2) as [[t2 w3] o2] eqn:E2.
      injection E as <- <- <-.
      rewrite (IH _ _ _ _ _ E2 Ho). reflexivity.
    + destruct (playback fuel drv false d bits r w2) as [[t2 w3] o2] eqn:E2.
      injection E as <- <- <-.
      rewrite (IH _ _ _ _ _ E2 Ho). reflexivity.
Qed.

(** ** The queue is only read from its head *)

Lemma pending_absorb (w : world) : pending (absorb w) = pending w.
Proof.
  unfold pending, absorb; cbn.
  destruct (arrivals w) as [|b arr]; cbn.
  - rewrite app_nil_r. reflexivity.
  - rewrite <- app_assoc. reflexivity.
Qed.

Lemma arrivals_absorb (w : world) :
  (List.length (arrivals (absorb w)) <= List.length (arrivals w))%nat.
Proof. unfold absorb; cbn. destruct (arrivals w); cbn; lia. Qed.

Lemma pending_nil_quiet (w : world) : pending w = [] -> quiet w.
Proof.
  unfold pending, quiet. intros H. apply app_eq_nil in H. destruct H as [Hq Ha].
  split; [exact Hq|].
  induction (arrivals w) as [|b arr IH]; [constructor|].
  cbn in Ha. apply app_eq_nil in Ha. destruct Ha as [Hb Harr].
  constructor; [exact Hb | exact (IH Harr)].
Qed.

Lemma gets_app (a b : trace) : gets (a ++ b) = gets a ++ gets b.
Proof.
  induction a as [|e a IH]; [reflexivity|].
  destruct e; cbn [app gets]; try exact IH.
  rewrite IH. reflexivity.
Qed.

Lemma gets_pin (drv : driver) (l : Z) (t : trace) :
  gets (pin drv l :: t) = gets t.
Proof.
  destruct drv as [|dc]; cbn; [reflexivity|].
  destruct (dc =? DRIVER_RPIGPIO); [reflexivity|].
  destruct (l =? 0); reflexivity.
Qed.

Lemma gets_poll (b : bool) (t : trace) : gets (Poll b :: t) = gets t.
Proof. reflexivity. Qed.

Lemma gets_hold (d : delay) (t : trace) : gets (Hold d :: t) = gets t.
Proof. reflexivity. Qed.

Lemma gets_close (drv : driver) : gets (close drv) = [].
Proof.
  destruct drv as [|dc]; cbn; [reflexivity|].
  destruct (dc =? DRIVER_GPIOZERO); reflexivity.
Qed.

(** One pass takes nothing from the queue. *)
Lemma play_bits_frame (drv : driver) (d : delay) (bits : list ascii) :
  forall w t w' e,
    play_bits drv d bits w = (t, w', e) ->
    gets t = [] /\ pending w' = pending w
    /\ (List.length (arrivals w') <= List.length (arrivals w))%nat.
Proof.
  induction bits as [|ch rest IH]; intros w t w' e E.
  - cbn in E. injection E as <- <- _. repeat split. lia.
  - cbn [play_bits] in E. unfold queue_empty in E.
    pose proof (pending_absorb w) as Hp. pose proof (arrivals_absorb w) as Ha.
    destruct (negb (is_nil (queue (absorb w)))).
    { injection E as <- <- _. repeat split; assumption. }
    destruct (int_of_char ch) as [level|].
    2:{ injection E as <- <- _. repeat split; assumption. }
    destruct (sleeps d).
    2:{ injection E as <- <- _. rewrite gets_poll, gets_pin.
      repeat split; assumption. }
    destruct (play_bits drv d rest (absorb w)) as [[t1 w2] e1] eqn:E1.
    injection E as <- <- _.
    destruct (IH _ _ _ _ E1) as [Hg [Hp2 Ha2]].
    rewrite gets_poll, gets_pin, gets_hold.
    split; [exact Hg|]. split; [congruence | lia].
Qed.

(** Nor does the playback loop; and it is left through [sys.exit()]
    only with the exit flag set. *)
Lemma playback_frame (drv : driver) (ex : bool) (d : delay) (bits : list ascii) :
  forall (fuel : nat) (r : Z) (w : world) t w' o,
    playback fuel drv ex d bits r w = (t, w', o) ->
    gets t = [] /\ pending w' = pending w
    /\ (List.length (arrivals w') <= List.length (arrivals w))%nat
    /\ (o = Exited -> ex = true).
Proof.
  induction fuel as [|fuel IH]; intros r w t w' o E.
  - cbn in E. injection E as <- <- <-. repeat split; [lia | discriminate].
  - rewrite playback_S in E. unfold queue_empty in E.
    pose proof (pending_absorb w) as Hp. pose proof (arrivals_absorb w) as Ha.
    destruct (negb (is_nil (queue (absorb w)))).
    { injection E as <- <- <-. repeat split; try assumption. discriminate. }
    destruct (play_bits drv d bits (absorb w)) as [[t1 w2] e] eqn:E1.
    destruct (play_bits_frame drv d bits _ _ _ _ E1) as [Hg1 [Hp1 Ha1]].
    assert (Hp2 : pending w2 = pending w) by congruence.
    assert (Ha2 : (List.length (arrivals w2) <= List.length (arrivals w))%nat) by lia.
    destruct e.
    2:{ injection E as <- <- <-. cbn [gets].
        repeat split; try assumption. discriminate. }
    destruct ex.
    { injection E as <- <- <-. cbn [gets]. rewrite gets_app, Hg1, gets_close.
      repeat split; assumption. }
    assert (Hrec : forall r',
               (let '(t', w3, o0) := playback fuel drv false d bits r' w2 in
                (Poll true :: t1 ++ t', w3, o0)) = (t, w', o) ->
               gets t = [] /\ pending w' = pending w
               /\ (List.length (arrivals w') <= List.length (arrivals w))%nat
               /\ (o = Exited -> false = true)).
    { intros r' E'.
      destruct (playback fuel drv false d bits r' w2) as [[t2 w3] o2] eqn:E2.
      injection E' as <- <- <-.
      destruct (IH _ _ _ _ _ E2) as [Hg [Hp3 [Ha3 Hx]]].
      cbn [gets]. rewrite gets_app, Hg1, Hg.
      split; [reflexivity|]. split; [congruence|]. split; [lia | exact Hx]. }
    destruct (0 <? r).
    + destruct (r - 1 =? 0); [|exact (Hrec _ E)].
      injection E as <- <- <-. cbn [gets].
      repeat split; try assumption. discriminate.
    + exact (Hrec _ E).
Qed.

Lemma get_from_pending (arr : list (list command)) :
  forall q c w1,
    get_from q arr = Some (c, w1) ->
    q ++ List.concat arr = c :: pending w1
    /\ (List.length (arrivals w1) <= List.length arr)%nat.
Proof.
  induction arr as [|b arr IH]; intros q c w1 E.
  - destruct q as [|c' q']; cbn in E; [discriminate|].
    injection E as <- <-. split; [reflexivity | cbn; lia].
  - destruct q as [|c' q']; cbn [get_from] in E.
    + destruct (IH _ _ _ E) as [H1 H2]. cbn. split; [exact H1 | lia].
    + injection E as <- <-. split; [reflexivity | cbn; lia].
Qed.

Lemma get_from_none (arr : list (list command)) :
  forall q, get_from q arr = None -> q ++ List.concat arr = [].
Proof.
  induction arr as [|b arr IH]; intros q E.
  - destruct q; [reflexivity | discriminate E].
  - destruct q as [|c' q']; cbn [get_from] in E; [|discriminate E].
    cbn. exact (IH _ E).
Qed.

Lemma queue_get_pending (w : world) (c : command) (w1 : world) :
  queue_get w = Some (c, w1) ->
  pending w = c :: pending w1
  /\ (List.length (arrivals w1) <= List.length (arrivals w))%nat.
Proof. apply get_from_pending. Qed.

Lemma queue_get_none (w : world) : queue_get w = None -> pending w = [].
Proof. apply get_from_none. Qed.

(** One turn of the outer loop: nothing dequeued beyond its command,
    the locals as [resolve] left them, the thread gone only with the
    exit flag set, and still playing only because the playback loop
    is. *)
Lemma iteration_frame (fuel : nat) (drv : driver) (st : player) (c : command)
    (w : world) t s :
  iteration fuel drv st c w = (t, s) ->
  gets t = []
  /\ match s with
     | Continue st' w' =>
         st' = after st c /\ pending w' = pending w
         /\ (List.length (arrivals w') <= List.length (arrivals w))%nat
     | ThreadExit => do_exit (after st c) = true
     | Spinning st' w' =>
         st' = after st c /\ pending w' = pending w
         /\ exists d bits r,
              snd (playback fuel drv (do_exit (after st c)) d bits r w) = OutOfFuel
     end.
Proof.
  unfold iteration, after.
  destruct (resolve st c) as [st1 res]. cbn [fst].
  destruct res as [m| |d bits r].
  - intros [= <- <-]. repeat split. lia.
  - intros [= <- <-]. repeat split. lia.
  - destruct (playback fuel drv (do_exit st1) d bits r w) as [[t1 w1] o] eqn:E.
    destruct (playback_frame drv _ d bits _ _ _ _ _ _ E) as [Hg [Hp [Ha Hx]]].
    destruct o; cbn [finish]; intros [= <- <-].
    + repeat split; assumption.
    + repeat split; assumption.
    + split; [exact Hg | exact (Hx eq_refl)].
    + rewrite gets_app, Hg. repeat split; assumption.
    + split; [exact Hg|]. split; [reflexivity|]. split; [exact Hp|].
      exists d, bits, r. rewrite E. reflexivity.
Qed.

(** *** A pushed command is always reached *)

Lemma pending_queue_nil (w : world) :
  pending w <> [] -> queue (absorb w) = [] ->
  (S (List.length (arrivals (absorb w))) <= List.length (arrivals w))%nat.
Proof.
  unfold pending, absorb; cbn. intros Hp Hq.
  apply app_eq_nil in Hq. destruct Hq as [Hq Hb].
  destruct (arrivals w) as [|b arr]; cbn in *.
  - exfalso. apply Hp. rewrite Hq. reflexivity.
  - lia.
Qed.

Lemma is_nil_true {A : Type} (l : list A) : is_nil l = true -> l = [].
Proof. destruct l; [reflexivity | discriminate]. Qed.

(** With a command queued or still to arrive, the playback loop is
    left within one pass more than there are batches to come. *)
Lemma playback_leaves (drv : driver) (ex : bool) (d : delay) (bits : list ascii) :
  forall (fuel : nat) (r : Z) (w : world),
    pending w <> [] -> (List.length (arrivals w) < fuel)%nat ->
    snd (playback fuel drv ex d bits r w) <> OutOfFuel.
Proof.
  induction fuel as [|fuel IH]; intros r w Hp Hf; [lia|].
  rewrite playback_S. unfold queue_empty.
  destruct (is_nil (queue (absorb w))) eqn:Hnil; cbn [negb]; [|discriminate].
  apply is_nil_true in Hnil.
  pose proof (pending_queue_nil w Hp Hnil) as Hlen.
  destruct (play_bits drv d bits (absorb w)) as [[t1 w2] e] eqn:E1.
  destruct (play_bits_frame drv d bits _ _ _ _ E1) as [_ [Hp1 Ha1]].
  rewrite pending_absorb in Hp1.
  destruct e; [|discriminate].
  destruct ex; [discriminate|].
  assert (Hrec : forall r',
             snd (let '(t', w3, o) := playback fuel drv false d bits r' w2 in
                  (Poll true :: t1 ++ t', w3, o)) <> OutOfFuel).
  { intros r'. specialize (IH r' w2).
    destruct (playback fuel drv false d bits r' w2) as [[t2 w3] o2].
    cbn [snd] in *. apply IH; [congruence | lia]. }
  destruct (0 <? r).
  - destruct (r - 1 =? 0); [discriminate | apply Hrec].
  - apply Hrec.
Qed.

(** The thread, given budget for every command and batch. *)
Lemma blinky_reaches_all (drv : driver) :
  forall (fuel : nat) (st : player) (w : world),
    (List.length (pending w) + List.length (arrivals w) < fuel)%nat ->
    snd (blinky fuel drv st w) = Terminated
    \/ (gets (fst (blinky fuel drv st w)) = pending w
        /\ forall st' w', snd (blinky fuel drv st w) = Running st' w' ->
             pending w' = []).
Proof.
  induction fuel as [|fuel IH]; intros st w Hf; [lia|].
  cbn [blinky]. destruct (queue_get w) as [[c w1]|] eqn:Eg.
  2:{ right. cbn. split; [symmetry; apply queue_get_none; exact Eg|].
      intros st' w'. discriminate. }
  destruct (queue_get_pending w c w1 Eg) as [Hp Ha].
  assert (Hlen : List.length (pending w) = S (List.length (pending w1))).
  { rewrite Hp. reflexivity. }
  destruct (iteration fuel drv st c w1) as [t s] eqn:Ei.
  destruct (iteration_frame fuel drv st c w1 t s Ei) as [Hg Hs].
  destruct s as [st' w2| |st' w2].
  - destruct Hs as [_ [Hp2 Ha2]].
    specialize (IH st' w2).
    destruct (blinky fuel drv st' w2) as [t' f]. cbn [fst snd] in *.
    destruct IH as [IH | [IH1 IH2]]; [rewrite Hp2; lia | left; exact IH |].
    right. split; [|exact IH2].
    cbn [gets]. rewrite gets_app, Hg, Hp, <- Hp2, IH1. reflexivity.
  - left. reflexivity.
  - right. destruct Hs as [_ [Hp2 [d [bits [r Hout]]]]].
    assert (Hnil : pending w1 = []).
    { destruct (pending w1) as [|c1 rest] eqn:Hpw; [reflexivity|].
      exfalso. revert Hout. apply playback_leaves; [rewrite Hpw; discriminate | lia]. }
    cbn [fst snd gets]. rewrite Hg, Hp, Hnil. split; [reflexivity|].
    intros st0 w0 [= _ <-]. congruence.
Qed.

(** *** Passes that are cut short *)

Lemma pin_writes_bit_step (drv : driver) (d : delay) (l : Z) (t : trace) :
  pin_writes (Poll true :: pin drv l :: Hold d :: t) = pin drv l :: pin_writes t.
Proof.
  unfold pin_writes. cbn [filter is_pin]. rewrite is_pin_pin. reflexivity.
Qed.

Lemma pin_writes_app (a b : trace) :
  pin_writes (a ++ b) = pin_writes a ++ pin_writes b.
Proof. apply filter_app. Qed.

Lemma pin_writes_close (drv : driver) : pin_writes (close drv) = [].
Proof. exact (proj1 (calm_no_writes (close drv) (close_calm drv))). Qed.

Lemma pin_writes_poll (b : bool) (t : trace) :
  pin_writes (Poll b :: t) = pin_writes t.
Proof. reflexivity. Qed.

(** On any schedule of arrivals a pass over a well-formed bitstream
    ends normally, having written an initial part of the pattern. *)
Lemma play_bits_prefix (drv : driver) (d : delay) (bits : list ascii) :
  sleeps d = true -> binary bits ->
  forall w, exists t w',
    play_bits drv d bits w = (t, w', Finished)
    /\ prefix (pin_writes t) (levels drv bits).
Proof.
  intros Hp. induction bits as [|ch rest IH]; intros Hb w.
  - exists [], w. split; [reflexivity | exists []; reflexivity].
  - apply binary_cons in Hb. destruct Hb as [Hch Hrest].
    cbn [play_bits]. unfold queue_empty.
    destruct (negb (is_nil (queue (absorb w)))).
    { exists [Poll false], (absorb w). split; [reflexivity|].
      exists (levels drv (ch :: rest)). reflexivity. }
    rewrite (int_of_char_bit ch Hch).
    rewrite Hp.
    destruct (IH Hrest (absorb w)) as [t [w' [E [more Hmore]]]].
    rewrite E. eexists _, w'. split; [reflexivity|].
    exists more. rewrite pin_writes_bit_step. cbn [levels map app].
    fold (levels drv rest). rewrite Hmore. reflexivity.
Qed.


Lemma playback_empty (drv : driver) (d : delay) (r : Z) :
  r <= 0 ->
  forall (fuel : nat) (w : world), quiet w ->
  exists w',
    playback fuel drv false d [] r w = (repeat (Poll true) fuel, w', OutOfFuel)
    /\ quiet w'.
Proof.
  intros Hr. induction fuel as [|fuel IH]; intros w Hw.
  - exists w. split; [reflexivity | exact Hw].
  - destruct (IH (absorb w) (quiet_absorb w Hw)) as [w' [E Hw']].
    exists w'. split; [|exact Hw'].
    rewrite playback_S, (queue_empty_quiet w Hw). cbn [negb play_bits].
    assert (H1 : (0 <? r) = false) by (apply Z.ltb_ge; exact Hr).
    rewrite H1, E. reflexivity.
Qed.

(** *** A bound on what a counted command drives *)

Lemma play_bits_count (drv : driver) (d : delay) (bits : list ascii) :
  forall w,
    (List.length (pin_writes (fst (fst (play_bits drv d bits w))))
     <= List.length bits)%nat.
Proof.
  induction bits as [|ch rest IH]; intros w; [cbn; lia|].
  cbn [play_bits]. unfold queue_empty.
  destruct (negb (is_nil (queue (absorb w)))); [cbn; lia|].
  destruct (int_of_char ch) as [level|]; [|cbn; lia].
  destruct (sleeps d).
  2:{ cbn [fst]. unfold pin_writes. cbn [filter is_pin]. rewrite is_pin_pin.
    cbn. lia. }
  specialize (IH (absorb w)).
  destruct (play_bits drv d rest (absorb w)) as [[t w2] e]. cbn [fst] in *.
  rewrite pin_writes_bit_step. cbn [List.length]. lia.
Qed.

Lemma playback_count (drv : driver) (ex : bool) (d : delay) (bits : list ascii) :
  forall (fuel : nat) (r : Z) (w : world),
    0 < r ->
    (List.length (pin_writes (fst (fst (playback fuel drv ex d bits r w))))
     <= Z.to_nat r * List.length bits)%nat.
Proof.
  induction fuel as [|fuel IH]; intros r w Hr; [cbn; lia|].
  rewrite playback_S. unfold queue_empty.
  destruct (negb (is_nil (queue (absorb w)))); [cbn; lia|].
  pose proof (play_bits_count drv d bits (absorb w)) as Hpass.
  destruct (play_bits drv d bits (absorb w)) as [[t1 w2] e]. cbn [fst] in Hpass.
  assert (Hone : (List.length bits <= Z.to_nat r * List.length bits)%nat) by nia.
  destruct e.
  2:{ cbn [fst]. rewrite pin_writes_poll. lia. }
  destruct ex.
  { cbn [fst]. rewrite pin_writes_poll, pin_writes_app, pin_writes_close, app_nil_r.
    lia. }
  assert (H1 : (0 <? r) = true) by (apply Z.ltb_lt; exact Hr).
  rewrite H1.
  destruct (r - 1 =? 0) eqn:H2.
  { cbn [fst]. rewrite pin_writes_poll. lia. }
  apply Z.eqb_neq in H2.
  specialize (IH (r - 1) w2 ltac:(lia)).
  destruct (playback fuel drv false d bits (r - 1) w2) as [[t2 w3] o].
  cbn [fst] in *. rewrite pin_writes_poll, pin_writes_app, length_app.
  replace (Z.to_nat r) with (S (Z.to_nat (r - 1))) by lia.
  cbn [Nat.mul]. lia.
Qed.

(** *** Closing the gpiozero device *)

Lemma pin_not_close (drv : driver) (l : Z) : pin drv l <> Close.
Proof.
  destruct drv as [|dc]; cbn; [discriminate|].
  destruct (dc =? DRIVER_RPIGPIO); [discriminate|].
  destruct (l =? 0); discriminate.
Qed.

Lemma close_in (drv : driver) :
  In Close (close drv) <-> drv = DriverCode DRIVER_GPIOZERO.
Proof.
  destruct drv as [|dc]; cbn.
  - split; [intros [] | discriminate].
  - destruct (dc =? DRIVER_GPIOZERO) eqn:H.
    + apply Z.eqb_eq in H. subst dc. split; [reflexivity | intros _; left; reflexivity].
    + apply Z.eqb_neq in H. split; [intros [] | intros [= E]; contradiction].
Qed.

Lemma play_bits_no_close (drv : driver) (d : delay) (bits : list ascii) :
  forall w, ~ In Close (fst (fst (play_bits drv d bits w))).
Proof.
  induction bits as [|ch rest IH]; intros w; [intros []|].
  cbn [play_bits]. unfold queue_empty.
  destruct (negb (is_nil (queue (absorb w)))).
  { cbn. intros [H | []]. discriminate H. }
  destruct (int_of_char ch) as [level|].
  2:{ cbn. intros [H | []]. discriminate H. }
  destruct (sleeps d).
  2:{ cbn. intros [H | [H | []]]; [discriminate H | exact (pin_not_close _ _ H)]. }
  specialize (IH (absorb w)).
  destruct (play_bits drv d rest (absorb w)) as [[t w2] e]. cbn [fst] in *.
  intros [H | [H | [H | H]]];
    [discriminate H | exact (pin_not_close _ _ H) | discriminate H | exact (IH H)].
Qed.

Lemma playback_close (drv : driver) (ex : bool) (d : delay) (bits : list ascii) :
  forall (fuel : nat) (r : Z) (w : world),
    In Close (fst (fst (playback fuel drv ex d bits r w)))
    <-> (snd (playback fuel drv ex d bits r w) = Exited
         /\ drv = DriverCode DRIVER_GPIOZERO).
Proof.
  induction fuel as [|fuel IH]; intros r w.
  { cbn. split; [intros [] | intros [H _]; discriminate H]. }
  rewrite playback_S. unfold queue_empty.
  destruct (negb (is_nil (queue (absorb w)))).
  { cbn. split; [intros [H | []]; discriminate H | intros [H _]; discriminate H]. }
  pose proof (play_bits_no_close drv d bits (absorb w)) as Hno.
  destruct (play_bits drv d bits (absorb w)) as [[t1 w2] e]. cbn [fst] in Hno.
  assert (Hstop : forall o, o <> Exited ->
             In Close (fst (fst (Poll true :: t1, w2, o)))
             <-> (snd (Poll true :: t1, w2, o) = Exited
                  /\ drv = DriverCode DRIVER_GPIOZERO)).
  { intros o Ho. cbn. split.
    - intros [H | H]; [discriminate H | contradiction].
    - intros [H _]. contradiction. }
  destruct e; [|apply Hstop; discriminate].
  destruct ex.
  - cbn [fst snd]. split.
    + intros [H | H]; [discriminate H|].
      apply in_app_or in H. destruct H as [H | H]; [contradiction|].
      split; [reflexivity | apply close_in; exact H].
    + intros [_ H]. right. apply in_or_app. right. apply close_in. exact H.
  - assert (Hrec : forall r',
               In Close
                 (fst (fst (let '(t', w3, o) :=
                              playback fuel drv false d bits r' w2 in
                            (Poll true :: t1 ++ t', w3, o))))
               <-> (snd (let '(t', w3, o) :=
                           playback fuel drv false d bits r' w2 in
                         (Poll true :: t1 ++ t', w3, o)) = Exited
                    /\ drv = DriverCode DRIVER_GPIOZERO)).
    { intros r'. specialize (IH r' w2).
      destruct (playback fuel drv false d bits r' w2) as [[t2 w3] o].
      cbn [fst snd] in *. split.
      - intros [H | H]; [discriminate H|].
        apply in_app_or in H. destruct H as [H | H]; [contradiction|].
        apply IH. exact H.
      - intros H. right. apply in_or_app. right. apply IH. exact H. }
    destruct (0 <? r); [destruct (r - 1 =? 0)|].
    + apply Hstop. discriminate.
    + apply Hrec.
    + apply Hrec.
Qed.

Lemma iteration_close (fuel : nat) (drv : driver) (st : player) (c : command)
    (w : world) :
  In Close (fst (iteration fuel drv st c w))
  <-> (snd (iteration fuel drv st c w) = ThreadExit
       /\ drv = DriverCode DRIVER_GPIOZERO).
Proof.
  unfold iteration. destruct (resolve st c) as [st1 res].
  destruct res as [m| |d bits r].
  - cbn. split; [intros [H | []]; discriminate H | intros [H _]; discriminate H].
  - cbn. split; [intros [H | []]; discriminate H | intros [H _]; discriminate H].
  - pose proof (playback_close drv (do_exit st1) d bits fuel r w) as Hc.
    destruct (playback fuel drv (do_exit st1) d bits r w) as [[t w'] o].
    cbn [fst snd] in Hc.
    destruct o; cbn [finish fst snd].
    + split; [intros H; apply Hc in H; destruct H as [H _]; discriminate H
             | intros [H _]; discriminate H].
    + split; [intros H; apply Hc in H; destruct H as [H _]; discriminate H
             | intros [H _]; discriminate H].
    + split; [intros H; split; [reflexivity | apply Hc; exact H]
             | intros [_ H]; apply Hc; split; [reflexivity | exact H]].
    + split; [|intros [H _]; discriminate H].
      intros H. apply in_app_or in H. destruct H as [H | [H | []]].
      * apply Hc in H. destruct H as [H _]. discriminate H.
      * discriminate H.
    + split; [intros H; apply Hc in H; destruct H as [H _]; discriminate H
             | intros [H _]; discriminate H].
Qed.

(** ** Repeat counts *)

(** C8: for a well-formed command (a period that [time.sleep]
    accepts, a bitstream of 0 and 1) with repeat count [-1] the playback
    loop is never left because the count ran out.  Whatever arrives
    and however long it runs, the loop is left only with a command
    pending in the queue or through the exit flag (or it is still
    running); and when nothing arrives and the exit flag is clear it
    plays every pass of any budget and is still running after it. *)
Theorem C8_endless_repeat (fuel : nat) (drv : driver) (ex : bool) (d : delay)
    (bits : list ascii) (w : world) :
  sleeps d = true -> binary bits ->
  (forall t w' o,
      playback fuel drv ex d bits (-1) w = (t, w', o) ->
      (o = Preempted /\ queue w' <> []) \/ (o = Exited /\ ex = true)
      \/ o = OutOfFuel)
  /\ (ex = false -> quiet w ->
      exists w',
        playback fuel drv ex d bits (-1) w
        = (passes fuel drv d bits, w', OutOfFuel) /\ quiet w').
Proof.
  intros Hp Hb. split.
  - intros t w' o E.
    pose proof (playback_outcome drv ex d bits Hp Hb fuel (-1) w t w' o E) as H.
    destruct o.
    + left. split; [reflexivity | exact H].
    + destruct H as [_ H]. lia.
    + right; left. split; [reflexivity | exact H].
    + contradiction.
    + right; right. reflexivity.
  - intros Hex Hw. subst ex.
    apply playback_unbounded; [assumption | assumption | lia | assumption].
Qed.

(** ** Save, restore and dropped commands *)

(** C5: after a command [A] (any command but a restoring one, with
    fields that decode to [d], [bits], [r]), then a saving command [B],
    then any number of restoring commands, a further restoring command
    [R] finds [A] in the save slot and is played with [A]'s period,
    bitstream and repeat count, whatever its own first three items
    are: restoring reads the slot and leaves it filled. *)
Theorem C5_save_restore_round_trip (st : player) (A B R : command)
    (Rs : list command) (d : delay) (bits : list ascii) (r : Z) :
  has_flag A CMD_RESTORE = false -> decode A = Play d bits r ->
  has_flag B CMD_SAVE = true ->
  Forall (fun c => has_flag c CMD_RESTORE = true) Rs ->
  has_flag R CMD_RESTORE = true ->
  let st' := fold_left after (A :: B :: Rs) st in
  let restored := {| cmd := Some A; cmd_save := Some A; do_exit := do_exit st' |} in
  cmd_save st' = Some A
  /\ resolve st' R = (restored, Play d bits r)
  /\ forall fuel drv w,
       iteration fuel drv st' R w
       = finish restored (playback fuel drv (do_exit st') d bits r w).
Proof.
  intros HA HdA HB HRs HR st' restored.
  assert (Hs : cmd_save st' = Some A).
  { subst st'. cbn [fold_left]. apply after_restores; [exact HRs|].
    unfold after at 1. rewrite (resolve_save _ B HB). cbn [fst cmd_save].
    apply after_cmd. exact HA. }
  assert (Hres : resolve st' R = (restored, Play d bits r)).
  { rewrite (resolve_restore st' R A HR Hs), HdA. reflexivity. }
  split; [exact Hs|]. split; [exact Hres|].
  intros fuel drv w. unfold iteration. rewrite Hres. reflexivity.
Qed.

(** C3 (as the code has it): a restoring command dequeued while the
    save slot is empty is reported and dropped before any driver call;
    the save slot stays empty and the exit flag is untouched.  The
    dropped command has however already been assigned to [cmd], so it
    is the prior command of the next turn: a saving command that
    follows puts the restoring command itself into the save slot. *)
Theorem C3_restore_without_save (fuel : nat) (drv : driver) (st : player)
    (R : command) (w : world) :
  has_flag R CMD_RESTORE = true -> cmd_save st = None ->
  iteration fuel drv st R w
  = ([Print (NoPriorSave R)],
     Continue {| cmd := Some R; cmd_save := None; do_exit := do_exit st |} w)
  /\ forall B, has_flag B CMD_SAVE = true ->
       cmd_save (after (after st R) B) = Some R.
Proof.
  intros HR Hs. split.
  - unfold iteration. rewrite (resolve_restore_empty st R HR Hs). reflexivity.
  - intros B HB. unfold after.
    rewrite (resolve_restore_empty st R HR Hs).
    rewrite (resolve_save _ B HB). reflexivity.
Qed.

(** ** Preemption at the boundaries of bit steps *)

(** C9: playback gives way to a new command at the boundaries of bit
    steps only.  For a period that [time.sleep] accepts and on any
    schedule of arrivals: every pass and every bit step opens with a check of the
    queue; every driver call comes directly after a check that found
    the queue empty and is directly followed by the whole hold; after
    a check that found a command nothing is driven or held any more;
    and with a command already pending the loop is left at its first
    check.  A command pushed between two checks is seen by the second,
    and at most one bit step lies between two checks. *)
Theorem C9_preemption_at_bit_boundaries (fuel : nat) (drv : driver)
    (ex : bool) (d : delay) (bits : list ascii) (r : Z) (w : world) :
  sleeps d = true ->
  let t := fst (fst (playback fuel drv ex d bits r w)) in
  (forall k w0, exists t',
      fst (fst (playback (S k) drv ex d bits r w0))
      = Poll (is_nil (queue (absorb w0))) :: t')
  /\ (forall ch rest w0, exists t',
      fst (fst (play_bits drv d (ch :: rest) w0))
      = Poll (is_nil (queue (absorb w0))) :: t')
  /\ guarded d t
  /\ (forall t1 t2, t = t1 ++ Poll false :: t2 ->
        pin_writes t2 = [] /\ holds t2 = [])
  /\ (queue w <> [] ->
        playback (S fuel) drv ex d bits r w = ([Poll false], absorb w, Preempted)).
Proof.
  intros Hp t. split; [|split; [|split; [|split]]].
  - intros k w0. apply playback_starts_with_check.
  - intros ch rest w0. apply play_bits_starts_with_check.
  - apply playback_guarded. exact Hp.
  - intros t1 t2 E.
    destruct (after_break_split t1 t2) as [pre Hpre].
    rewrite <- E in Hpre. subst t.
    apply playback_after_break in Hpre.
    apply Forall_app in Hpre. destruct Hpre as [_ Hcalm].
    apply calm_no_writes. exact Hcalm.
  - apply playback_busy.
Qed.

(** ** Further properties of the thread body *)

(** X1: a four-item command whose fourth item is none of the three
    option flags is reported as an invalid save/restore command and
    dropped before any driver call or look at the queue; the save slot
    and the exit flag stay as they were, and the command has become
    [cmd]. *)
Theorem X1_invalid_option (fuel : nat) (drv : driver) (st : player)
    (c : command) (w : world) :
  len c = 4 -> has_flag c CMD_SAVE = false ->
  has_flag c CMD_RESTORE = false -> has_flag c CMD_EXIT = false ->
  iteration fuel drv st c w
  = ([Print (InvalidOption c)], Continue (took c st) w).
Proof.
  intros Hl Hs Hr He. apply Z.eqb_eq in Hl.
  unfold iteration, resolve. rewrite Hl.
  rewrite (has_flag_false_at c _ Hl Hs), (has_flag_false_at c _ Hl Hr),
    (has_flag_false_at c _ Hl He).
  reflexivity.
Qed.

(** X2: the save slot is written by saving commands only: the turn of
    any command without the save flag, played or dropped or aborted,
    leaves [cmd_save] as it was. *)
Theorem X2_save_slot_frame (st : player) (c : command) :
  has_flag c CMD_SAVE = false -> cmd_save (after st c) = cmd_save st.
Proof.
  unfold has_flag, after, resolve. intros H.
  destruct (len c =? 4); [|reflexivity].
  cbn [andb] in H. rewrite H.
  destruct (eq_int (item c 3) CMD_RESTORE).
  - cbn [cmd_save]. destruct (cmd_save st) as [saved|] eqn:Hs; cbn; congruence.
  - destruct (eq_int (item c 3) CMD_EXIT); reflexivity.
Qed.

(** X3: the exit flag is set by a dequeued command with the exit flag
    and by nothing else, and nothing ever clears it: after the turn of
    a command it holds exactly when it held before or the command
    carries [CMD_EXIT].  In particular a restored command's own flag
    plays no part. *)
Theorem X3_exit_flag (st : player) (c : command) :
  do_exit (after st c) = (do_exit st || has_flag c CMD_EXIT)%bool.
Proof.
  unfold has_flag, after, resolve.
  destruct (len c =? 4); [|cbn; rewrite orb_false_r; reflexivity].
  cbn [andb].
  destruct (eq_int (item c 3) CMD_SAVE) eqn:Hs.
  { apply eq_int_true in Hs. rewrite Hs. cbn. rewrite orb_false_r. reflexivity. }
  destruct (eq_int (item c 3) CMD_RESTORE) eqn:Hr.
  { apply eq_int_true in Hr. rewrite Hr.
    cbn [cmd_save]. destruct (cmd_save st); cbn; rewrite orb_false_r; reflexivity. }
  destruct (eq_int (item c 3) CMD_EXIT).
  - cbn. rewrite orb_true_r. reflexivity.
  - cbn. rewrite orb_false_r. reflexivity.
Qed.

(** X4: a saving command dequeued before any other command (while
    [cmd] is still [None]) saves nothing, and a restoring command
    right after it is reported as having no prior save and dropped. *)
Theorem X4_save_first_saves_nothing (st : player) (B R : command) :
  cmd st = None -> has_flag B CMD_SAVE = true -> has_flag R CMD_RESTORE = true ->
  cmd_save (after st B) = None
  /\ resolve (after st B) R
     = ({| cmd := Some R; cmd_save := None; do_exit := do_exit st |},
        Skip (NoPriorSave R)).
Proof.
  intros Hc HB HR.
  assert (E : after st B
              = {| cmd := Some B; cmd_save := None; do_exit := do_exit st |}).
  { unfold after. rewrite (resolve_save st B HB), Hc. reflexivity. }
  rewrite E. split; [reflexivity|].
  exact (resolve_restore_empty
           {| cmd := Some B; cmd_save := None; do_exit := do_exit st |}
           R HR eq_refl).
Qed.

(** X5: [__init__] gives up ([sys.exit()]) exactly on an integer driver
    code other than [DRIVER_RPIGPIO] and [DRIVER_GPIOZERO], after
    printing and without any driver call; and whenever it succeeds,
    every backend attribute that the thread body reads for this driver
    (for a bit at lines 153-158, on exit at lines 163-164) has been
    assigned by it. *)
Theorem X5_init_covers_thread (drv : driver) :
  (snd (init drv) = None <->
   exists dc, drv = DriverCode dc /\ dc <> DRIVER_RPIGPIO /\ dc <> DRIVER_GPIOZERO)
  /\ (snd (init drv) = None -> fst (init drv) = [PrintUnknownDriver])
  /\ forall have, snd (init drv) = Some have ->
       incl (pin_reads drv ++ close_reads drv) have.
Proof.
  split; [|split].
  - split.
    + destruct drv as [|dc]; cbn; [discriminate|].
      destruct (dc =? DRIVER_RPIGPIO) eqn:H1; [discriminate|].
      destruct (dc =? DRIVER_GPIOZERO) eqn:H2; [discriminate|].
      intros _. exists dc. apply Z.eqb_neq in H1. apply Z.eqb_neq in H2.
      split; [reflexivity | split; assumption].
    + intros [dc [-> [H1 H2]]]. cbn.
      apply Z.eqb_neq in H1. apply Z.eqb_neq in H2. rewrite H1, H2. reflexivity.
  - destruct drv as [|dc]; cbn; [discriminate|].
    destruct (dc =? DRIVER_RPIGPIO); [discriminate|].
    destruct (dc =? DRIVER_GPIOZERO); [discriminate | reflexivity].
  - intros have. destruct drv as [|dc]; cbn.
    + intros _ a Ha. destruct Ha.
    + destruct (dc =? DRIVER_RPIGPIO) eqn:H1.
      * apply Z.eqb_eq in H1. subst dc. cbn. intros [= <-]. apply incl_refl.
      * destruct (dc =? DRIVER_GPIOZERO) eqn:H2; [|discriminate].
        cbn. intros [= <-] a [<- | [<- | []]]; left; reflexivity.
Qed.

(** X6: commands are taken strictly in the order they were pushed and
    none is skipped: on any schedule of arrivals the commands dequeued
    by the thread are an initial part of everything pushed, and when
    the thread ends up blocked in [queue.get()] they are all of it.
    The playback loop itself never removes a command: what preempts a
    pattern is still in the queue for the next [get]. *)
Theorem X6_first_in_first_out (fuel : nat) (drv : driver) (st : player)
    (w : world) :
  prefix (gets (fst (blinky fuel drv st w))) (pending w)
  /\ (forall st', snd (blinky fuel drv st w) = Waiting st' ->
        gets (fst (blinky fuel drv st w)) = pending w)
  /\ (forall ex d bits r,
        pending (snd (fst (playback fuel drv ex d bits r w))) = pending w).
Proof.
  split; [|split].
  - revert st w. induction fuel as [|fuel IH]; intros st w.
    + exists (pending w). reflexivity.
    + cbn [blinky]. destruct (queue_get w) as [[c w1]|] eqn:Eg.
      2:{ exists (pending w). reflexivity. }
      destruct (queue_get_pending w c w1 Eg) as [Hp _].
      destruct (iteration fuel drv st c w1) as [t s] eqn:Ei.
      destruct (iteration_frame fuel drv st c w1 t s Ei) as [Hg Hs].
      destruct s as [st' w2| |st' w2].
      * destruct Hs as [_ [Hp2 _]].
        specialize (IH st' w2).
        destruct (blinky fuel drv st' w2) as [t' f]. cbn [fst] in *.
        destruct IH as [rest Hrest]. exists rest.
        cbn [gets]. rewrite gets_app, Hg, Hp, <- Hp2, Hrest. reflexivity.
      * exists (pending w1). cbn [fst gets]. rewrite Hg, Hp. reflexivity.
      * exists (pending w1). cbn [fst gets]. rewrite Hg, Hp. reflexivity.
  - revert st w. induction fuel as [|fuel IH]; intros st w st0.
    + cbn. discriminate.
    + cbn [blinky]. destruct (queue_get w) as [[c w1]|] eqn:Eg.
      2:{ intros _. cbn. symmetry. apply queue_get_none. exact Eg. }
      destruct (queue_get_pending w c w1 Eg) as [Hp _].
      destruct (iteration fuel drv st c w1) as [t s] eqn:Ei.
      destruct (iteration_frame fuel drv st c w1 t s Ei) as [Hg Hs].
      destruct s as [st' w2| |st' w2]; [|cbn; discriminate|cbn; discriminate].
      destruct Hs as [_ [Hp2 _]].
      specialize (IH st' w2 st0).
      destruct (blinky fuel drv st' w2) as [t' f]. cbn [fst snd] in *.
      intros Hf. cbn [gets]. rewrite gets_app, Hg, Hp, <- Hp2, (IH Hf).
      reflexivity.
  - intros ex d bits r.
    destruct (playback fuel drv ex d bits r w) as [[t w'] o] eqn:E.
    exact (proj1 (proj2 (playback_frame drv ex d bits _ _ _ _ _ _ E))).
Qed.

(** X7: no pattern, not even an endless one, keeps a pushed command
    waiting for ever.  On any schedule of arrivals and for any
    command being played (any period, bitstream, repeat count and
    exit flag), as long as a command is queued or still to arrive the
    playback loop is left within one pass more than there are batches
    of arrivals to come. *)
Theorem X7_playback_gives_way (fuel : nat) (drv : driver) (ex : bool) (d : delay)
    (bits : list ascii) (r : Z) (w : world) :
  pending w <> [] -> (List.length (arrivals w) < fuel)%nat ->
  exists t w' o,
    playback fuel drv ex d bits r w = (t, w', o)
    /\ (o = Preempted \/ o = Exhausted \/ o = Exited \/ o = Raised)
    /\ pending w' = pending w.
Proof.
  intros Hp Hf.
  pose proof (playback_leaves drv ex d bits fuel r w Hp Hf) as Hl.
  destruct (playback fuel drv ex d bits r w) as [[t w'] o] eqn:E.
  exists t, w', o. split; [reflexivity|]. split.
  - cbn [snd] in Hl. destruct o; auto. contradiction.
  - exact (proj1 (proj2 (playback_frame drv ex d bits _ _ _ _ _ _ E))).
Qed.

(** X8: unless the thread exits, every command that is pushed is
    dequeued, in order: given a budget that covers every command and
    every batch of arrivals, the thread has either terminated or has
    dequeued everything that was pushed, and if it is still playing
    then nothing is queued and nothing is still to come. *)
Theorem X8_every_command_is_reached (fuel : nat) (drv : driver) (st : player)
    (w : world) :
  (List.length (pending w) + List.length (arrivals w) < fuel)%nat ->
  snd (blinky fuel drv st w) = Terminated
  \/ (gets (fst (blinky fuel drv st w)) = pending w
      /\ forall st' w', snd (blinky fuel drv st w) = Running st' w' ->
           pending w' = []).
Proof. apply blinky_reaches_all. Qed.

(** X9: the thread never exits on its own.  If a run of the thread
    has reached [sys.exit()], then the exit flag was already set when
    the run began or one of the commands it dequeued carries
    [CMD_EXIT]; errors, invalid commands and exhausted counts send it
    back to [queue.get()]. *)
Theorem X9_exit_only_on_request (fuel : nat) (drv : driver) (st : player)
    (w : world) :
  snd (blinky fuel drv st w) = Terminated ->
  do_exit st = true
  \/ Exists (fun c => has_flag c CMD_EXIT = true) (gets (fst (blinky fuel drv st w))).
Proof.
  revert st w. induction fuel as [|fuel IH]; intros st w; [cbn; discriminate|].
  cbn [blinky]. destruct (queue_get w) as [[c w1]|]; [|cbn; discriminate].
  destruct (iteration fuel drv st c w1) as [t s] eqn:Ei.
  destruct (iteration_frame fuel drv st c w1 t s Ei) as [Hg Hs].
  assert (Hflag : do_exit (after st c) = true ->
                  forall rest,
                    do_exit st = true
                    \/ Exists (fun c => has_flag c CMD_EXIT = true) (c :: rest)).
  { intros H rest. rewrite do_exit_after in H. apply orb_true_iff in H.
    destruct H as [H | H]; [left; exact H | right; constructor; exact H]. }
  destruct s as [st' w2| |st' w2].
  - destruct Hs as [-> _].
    specialize (IH (after st c) w2).
    destruct (blinky fuel drv (after st c) w2) as [t' f]. cbn [fst snd] in *.
    intros Hf. cbn [gets]. rewrite gets_app, Hg. cbn [app].
    destruct (IH Hf) as [H | H]; [exact (Hflag H _)|].
    right. apply Exists_cons_tl. exact H.
  - intros _. cbn [fst gets]. rewrite Hg. exact (Hflag Hs []).
  - cbn. discriminate.
Qed.

(** X16: a command with repeat count [n > 0] never drives the pin
    more than [n * len(bitstream)] times, on any schedule of arrivals,
    with either setting of the exit flag and whether or not its period
    and bitstream are well formed: preemption and errors can only
    shorten what is played. *)
Theorem X16_counted_command_bound (fuel : nat) (drv : driver) (ex : bool)
    (d : delay) (bits : list ascii) (r : Z) (w : world) :
  0 < r ->
  (List.length (pin_writes (fst (fst (playback fuel drv ex d bits r w))))
   <= Z.to_nat r * List.length bits)%nat.
Proof. apply playback_count. Qed.

(** X17: the gpiozero device is closed when, and only when, the thread
    exits: a run of the thread calls [gpiozero_instance.close()]
    exactly if it reached [sys.exit()] and the driver is
    [DRIVER_GPIOZERO]; no other driver is ever closed, and no error,
    preemption or exhausted count closes the device. *)
Theorem X17_close_exactly_on_exit (fuel : nat) (drv : driver) (st : player)
    (w : world) :
  In Close (fst (blinky fuel drv st w))
  <-> (snd (blinky fuel drv st w) = Terminated
       /\ drv = DriverCode DRIVER_GPIOZERO).
Proof.
  revert st w. induction fuel as [|fuel IH]; intros st w.
  { cbn. split; [intros [] | intros [H _]; discriminate H]. }
  cbn [blinky]. destruct (queue_get w) as [[c w1]|].
  2:{ cbn. split; [intros [] | intros [H _]; discriminate H]. }
  pose proof (iteration_close fuel drv st c w1) as Hc.
  destruct (iteration fuel drv st c w1) as [t s]. cbn [fst snd] in Hc.
  destruct s as [st' w2| |st' w2].
  - specialize (IH st' w2).
    destruct (blinky fuel drv st' w2) as [t' f]. cbn [fst snd] in *. split.
    + intros [H | H]; [discriminate H|].
      apply in_app_or in H. destruct H as [H | H].
      * apply Hc in H. destruct H as [H _]. discriminate H.
      * apply IH. exact H.
    + intros H. right. apply in_or_app. right. apply IH. exact H.
  - cbn [fst snd]. split.
    + intros [H | H]; [discriminate H|].
      split; [reflexivity | apply Hc; exact H].
    + intros [_ H]. right. apply Hc. split; [reflexivity | exact H].
  - cbn [fst snd]. split.
    + intros [H | H]; [discriminate H|].
      apply Hc in H. destruct H as [H _]. discriminate H.
    + intros [H _]. discriminate H.
Qed.

(** ** Counts, flags and periods: the remaining cases *)

(** A count that is not positive, on any schedule of arrivals: the
    loop is left with a command pending or through the exit flag, or
    it is still running. *)
Lemma playback_unending (drv : driver) (ex : bool) (d : delay)
    (bits : list ascii) (r : Z) :
  sleeps d = true -> binary bits -> r <= 0 ->
  forall (fuel : nat) (w : world) t w' o,
    playback fuel drv ex d bits r w = (t, w', o) ->
    (o = Preempted /\ queue w' <> []) \/ (o = Exited /\ ex = true)
    \/ o = OutOfFuel.
Proof.
  intros Hd Hb Hr fuel w t w' o E.
  pose proof (playback_outcome drv ex d bits Hd Hb fuel r w t w' o E) as H.
  destruct o.
  - left. split; [reflexivity | exact H].
  - destruct H as [_ H]. lia.
  - right; left. split; [reflexivity | exact H].
  - contradiction.
  - right; right. reflexivity.
Qed.

(** Counts that are not positive, for a command alone in its queue. *)
Lemma blinky_unbounded (fuel : nat) (drv : driver) (st : player)
    (p : Z) (s : string) (r : Z) (arr : list (list command)) :
  holdable p -> binary (list_ascii_of_string s) -> r <= 0 ->
  do_exit st = false -> silent arr ->
  exists w',
    blinky (S fuel) drv st {| queue := [plain p s r]; arrivals := arr |}
    = (Get (plain p s r) :: passes fuel drv (Ms p) (list_ascii_of_string s),
       Running (took (plain p s r) st) w')
    /\ quiet w'.
Proof.
  intros [Hf Hd] Hb Hr Hex Harr.
  destruct (playback_unbounded drv (Ms p) (list_ascii_of_string s) r Hd Hb Hr fuel
              {| queue := []; arrivals := arr |} (quiet_silent arr Harr))
    as [w' [E Hw']].
  exists w'. split; [|assumption].
  cbn [blinky]. rewrite queue_get_cons, (iteration_plain _ _ _ _ _ _ _ Hf), Hex, E.
  reflexivity.
Qed.

(** A positive count, for a command alone in its queue with the exit
    flag clear. *)
Lemma counted_passes (fuel : nat) (drv : driver) (st : player)
    (p : Z) (s : string) (n : Z) (arr : list (list command)) :
  holdable p -> binary (list_ascii_of_string s) -> 0 < n ->
  do_exit st = false -> silent arr -> (Z.to_nat n < fuel)%nat ->
  blinky fuel drv st {| queue := [plain p s n]; arrivals := arr |}
  = (Get (plain p s n)
       :: passes (Z.to_nat n) drv (Ms p) (list_ascii_of_string s),
     Waiting (took (plain p s n) st)).
Proof.
  intros [Hf Hd] Hb Hn Hex Harr Hfuel.
  destruct fuel as [|fuel]; [lia|].
  destruct (Z.to_nat n) as [|k] eqn:Hk; [lia|].
  assert (Hn' : n = Z.of_nat (S k)) by lia.
  destruct (playback_counted drv (Ms p) (list_ascii_of_string s) Hd Hb k fuel
              {| queue := []; arrivals := arr |} ltac:(lia) (quiet_silent arr Harr))
    as [w' [E Hw']].
  cbn [blinky]. rewrite queue_get_cons, (iteration_plain _ _ _ _ _ _ _ Hf), Hex.
  rewrite Hn' at 2. rewrite E. cbn [finish].
  destruct fuel as [|fuel]; [lia|].
  cbn [blinky]. rewrite (queue_get_quiet w' Hw'), app_nil_r. reflexivity.
Qed.

(** C1 (as the code has it): a well-formed command with repeat count 0
    and no option flag (an int period that [float] converts and
    [time.sleep] accepts, a bitstream of 0 and 1) is not played once.
    Its count is never decremented: the playback loop does with 0
    exactly what it does with [-1], on every queue and with either
    setting of the exit flag; it is never left because the count ran
    out, only with a command pending or through the exit flag; and
    with the exit flag clear and nothing else arriving the thread plays
    pass after pass for as long as it is observed, never returning to
    [queue.get()]. *)
Theorem C1_zero_repeats_on (fuel : nat) (drv : driver) (st : player)
    (p : Z) (s : string) (arr : list (list command)) :
  holdable p -> binary (list_ascii_of_string s) ->
  (forall ex d bits w,
      playback fuel drv ex d bits 0 w = playback fuel drv ex d bits (-1) w)
  /\ (forall ex w t w' o,
        playback fuel drv ex (Ms p) (list_ascii_of_string s) 0 w = (t, w', o) ->
        (o = Preempted /\ queue w' <> []) \/ (o = Exited /\ ex = true)
        \/ o = OutOfFuel)
  /\ (do_exit st = false -> silent arr ->
      exists w',
        blinky (S fuel) drv st {| queue := [plain p s 0]; arrivals := arr |}
        = (Get (plain p s 0) :: passes fuel drv (Ms p) (list_ascii_of_string s),
           Running (took (plain p s 0) st) w')
        /\ quiet w').
Proof.
  intros Hh Hb. split; [|split].
  - intros ex d bits w. apply playback_nonpositive. lia.
  - intros ex w t w' o E.
    exact (playback_unending drv ex (Ms p) _ 0 (proj2 Hh) Hb ltac:(lia)
             fuel w t w' o E).
  - intros Hex Harr.
    apply blinky_unbounded; [assumption | assumption | lia | assumption | assumption].
Qed.

(** C10: a repeat count below [-1] is handled exactly as [-1].  The
    playback loop does the same on every queue, for every period and
    bitstream and with either setting of the exit flag, since lines
    166-169 act on positive counts only.  So for a well-formed command
    the loop is never left because the count ran out, only with a
    command pending or through the exit flag; and alone in its queue,
    with the exit flag clear, such a command is played pass after pass
    without end. *)
Theorem C10_below_minus_one (fuel : nat) (drv : driver) (st : player)
    (p : Z) (s : string) (r : Z) (arr : list (list command)) :
  r < -1 ->
  (forall ex d bits w,
      playback fuel drv ex d bits r w = playback fuel drv ex d bits (-1) w)
  /\ (forall ex d bits w t w' o,
        sleeps d = true -> binary bits ->
        playback fuel drv ex d bits r w = (t, w', o) ->
        (o = Preempted /\ queue w' <> []) \/ (o = Exited /\ ex = true)
        \/ o = OutOfFuel)
  /\ (holdable p -> binary (list_ascii_of_string s) ->
      do_exit st = false -> silent arr ->
      exists w',
        blinky (S fuel) drv st {| queue := [plain p s r]; arrivals := arr |}
        = (Get (plain p s r) :: passes fuel drv (Ms p) (list_ascii_of_string s),
           Running (took (plain p s r) st) w')
        /\ quiet w').
Proof.
  intros Hr. split; [|split].
  - intros ex d bits w. apply playback_nonpositive. lia.
  - intros ex d bits w t w' o Hd Hb E.
    exact (playback_unending drv ex d bits r Hd Hb ltac:(lia) fuel w t w' o E).
  - intros Hh Hb Hex Harr.
    apply blinky_unbounded; [assumption | assumption | lia | assumption | assumption].
Qed.

(** C4 (as the code has it): a command with the save flag first puts
    the prior command into the save slot and is then decoded and
    played with its own period, bitstream and repeat count, exactly as
    the same items without the flag would be.  The prior command is
    what the turn before left in [cmd]: the command dequeued just
    before, whether it was played, dropped or abandoned, or, after a
    restoring command that found something saved, the saved command. *)
Theorem C4_save_records_then_plays (fuel : nat) (drv : driver) (st : player)
    (p : Z) (s : string) (r : Z) (x0 x1 x2 : pyval) (w : world) :
  let c := [x0; x1; x2; PInt CMD_SAVE] in
  let saved := {| cmd := Some (flagged p s r CMD_SAVE); cmd_save := cmd st;
                  do_exit := do_exit st |} in
  resolve st c
  = ({| cmd := Some c; cmd_save := cmd st; do_exit := do_exit st |},
     decode [x0; x1; x2])
  /\ resolve st [x0; x1; x2] = (took [x0; x1; x2] st, decode [x0; x1; x2])
  /\ (Z.abs p < float_limit ->
      iteration fuel drv st (flagged p s r CMD_SAVE) w
      = finish saved
          (playback fuel drv (do_exit st) (Ms p) (list_ascii_of_string s) r w)
      /\ iteration fuel drv st (plain p s r) w
         = finish (took (plain p s r) st)
             (playback fuel drv (do_exit st) (Ms p) (list_ascii_of_string s) r w))
  /\ (forall prev, has_flag prev CMD_RESTORE = false ->
        cmd_save (after (after st prev) c) = Some prev)
  /\ (forall R kept, has_flag R CMD_RESTORE = true -> cmd_save st = Some kept ->
        cmd_save (after (after st R) c) = Some kept).
Proof.
  intros c saved.
  assert (Hsave : forall st0, after st0 c
            = {| cmd := Some c; cmd_save := cmd st0; do_exit := do_exit st0 |}).
  { intros st0. reflexivity. }
  split; [reflexivity|]. split; [reflexivity|]. split; [|split].
  - intros Hf. split.
    + unfold iteration.
      rewrite (resolve_save st (flagged p s r CMD_SAVE) eq_refl).
      rewrite (decode_flagged p s r CMD_SAVE Hf). reflexivity.
    + apply iteration_plain. exact Hf.
  - intros prev Hprev. rewrite Hsave. cbn [cmd_save].
    apply after_cmd. exact Hprev.
  - intros R kept HR Hk. rewrite Hsave. cbn [cmd_save].
    unfold after. rewrite (resolve_restore st R kept HR Hk). reflexivity.
Qed.

(** *** Commands that are not well formed *)


Lemma reports_app (a b : trace) : reports (a ++ b) = reports a ++ reports b.
Proof.
  induction a as [|e a IH]; [reflexivity|].
  destruct e; cbn [app reports]; try exact IH.
  rewrite IH. reflexivity.
Qed.




(** ** Exit *)

Lemma resolve_exit (st : player) (p : Z) (s : string) (r : Z) :
  Z.abs p < float_limit ->
  resolve st (flagged p s r CMD_EXIT)
  = ({| cmd := Some (flagged p s r CMD_EXIT); cmd_save := cmd_save st;
        do_exit := true |}, Play (Ms p) (list_ascii_of_string s) r).
Proof.
  intros H. unfold resolve.
  change (len (flagged p s r CMD_EXIT) =? 4) with true.
  change (eq_int (item (flagged p s r CMD_EXIT) 3) CMD_SAVE) with false.
  change (eq_int (item (flagged p s r CMD_EXIT) 3) CMD_RESTORE) with false.
  change (eq_int (item (flagged p s r CMD_EXIT) 3) CMD_EXIT) with true.
  cbv iota. rewrite (decode_flagged p s r CMD_EXIT H). reflexivity.
Qed.

(** A well-formed command with the exit flag, dequeued while nothing
    else is queued or arrives, is played for one pass and ends the
    thread. *)
Lemma exit_undisturbed (fuel : nat) (drv : driver) (st : player)
    (p : Z) (s : string) (r : Z) (arr : list (list command)) :
  holdable p -> binary (list_ascii_of_string s) -> silent arr ->
  blinky (S (S fuel)) drv st
    {| queue := [flagged p s r CMD_EXIT]; arrivals := arr |}
  = (Get (flagged p s r CMD_EXIT)
       :: one_pass drv (Ms p) (list_ascii_of_string s) ++ close drv,
     Terminated).
Proof.
  intros [Hf Hd] Hb Harr.
  destruct (playback_exiting drv (Ms p) (list_ascii_of_string s) r Hd Hb fuel
              {| queue := []; arrivals := arr |} (quiet_silent arr Harr))
    as [w' [E _]].
  cbn [blinky]. rewrite queue_get_cons. unfold iteration.
  rewrite (resolve_exit st p s r Hf). cbn [do_exit]. rewrite E. reflexivity.
Qed.

(** With a command queued behind it, a command with the exit flag sets
    the flag and is preempted at the first check: nothing is written
    and the thread goes on to the next command, the flag still set. *)
Lemma exit_preempted (fuel : nat) (drv : driver) (st : player)
    (p : Z) (s : string) (r : Z) (w : world) :
  Z.abs p < float_limit -> queue w <> [] ->
  iteration (S fuel) drv st (flagged p s r CMD_EXIT) w
  = ([Poll false],
     Continue {| cmd := Some (flagged p s r CMD_EXIT); cmd_save := cmd_save st;
                 do_exit := true |} (absorb w)).
Proof.
  intros Hf H. unfold iteration. rewrite (resolve_exit st p s r Hf).
  cbn [do_exit].
  rewrite (playback_busy fuel drv true (Ms p) (list_ascii_of_string s) r w H).
  reflexivity.
Qed.

(** *** Leaving the thread through an exiting command *)

Lemma blinky_exits_at_last (drv : driver) (p : Z) (s : string) (r : Z) :
  holdable p -> binary (list_ascii_of_string s) ->
  forall (fuel : nat) (cs : list command) (st : player) (w : world),
    pending w = cs ++ [flagged p s r CMD_EXIT] ->
    (S (List.length (pending w) + List.length (arrivals w)) < fuel)%nat ->
    snd (blinky fuel drv st w) = Terminated.
Proof.
  intros [Hfl Hd] Hb. induction fuel as [|fuel IH]; intros cs st w Hw Hf; [lia|].
  cbn [blinky]. destruct (queue_get w) as [[c w1]|] eqn:Eg.
  2:{ apply queue_get_none in Eg. rewrite Eg in Hw.
      exfalso. exact (app_cons_not_nil cs [] _ Hw). }
  destruct (queue_get_pending w c w1 Eg) as [Hpw Ha].
  assert (Hlen : List.length (pending w) = S (List.length (pending w1))).
  { rewrite Hpw. reflexivity. }
  destruct cs as [|c0 cs].
  - rewrite Hpw in Hw. cbn in Hw. injection Hw as -> Hnil.
    apply pending_nil_quiet in Hnil.
    destruct fuel as [|fuel]; [lia|].
    destruct (playback_exiting drv (Ms p) (list_ascii_of_string s) r Hd Hb
                fuel w1 Hnil) as [w' [E _]].
    unfold iteration. rewrite (resolve_exit st p s r Hfl). cbn [do_exit].
    rewrite E. reflexivity.
  - rewrite Hpw in Hw. cbn in Hw. injection Hw as -> Hrest.
    destruct (iteration fuel drv st c0 w1) as [t s0] eqn:Ei.
    destruct (iteration_frame fuel drv st c0 w1 t s0 Ei) as [_ Hs].
    destruct s0 as [st' w2| |st' w2].
    + destruct Hs as [_ [Hp2 Ha2]].
      specialize (IH cs st' w2).
      destruct (blinky fuel drv st' w2) as [t' f]. cbn [snd] in *.
      apply IH; [congruence | rewrite Hp2; lia].
    + reflexivity.
    + exfalso. destruct Hs as [_ [_ [d' [bits' [r' Hout]]]]].
      revert Hout. apply playback_leaves; [|lia].
      rewrite Hrest. intros H. exact (app_cons_not_nil cs [] _ (eq_sym H)).
Qed.

(** X10: pushing a well-formed command with the exit flag (an int
    period that [float] converts and [time.sleep] accepts, a bitstream
    of 0 and 1) as the last command ends the thread, whatever was
    pushed before it, whenever it arrives, whatever is being played
    and whatever the locals hold: with budget for every command and
    batch the run ends in [sys.exit()], so the [join()] of the caller
    returns. *)
Theorem X10_exit_pushed_last_terminates (fuel : nat) (drv : driver)
    (st : player) (p : Z) (s : string) (r : Z) (cs : list command) (w : world) :
  holdable p -> binary (list_ascii_of_string s) ->
  pending w = cs ++ [flagged p s r CMD_EXIT] ->
  (S (List.length (pending w) + List.length (arrivals w)) < fuel)%nat ->
  snd (blinky fuel drv st w) = Terminated.
Proof. intros Hp Hb. apply blinky_exits_at_last; assumption. Qed.

(** X11: once a well-formed command (a period that [time.sleep]
    accepts, a bitstream of 0 and 1) is being played with the exit
    flag set and the check at the start of its pass found the queue
    empty, the thread exits at the end of that pass even when a
    command arriving during the pass cuts it short: the pin has then
    been driven through an initial part of the pattern only, and the
    command that cut the pass is left in the queue, never dequeued. *)
Theorem X11_exit_after_cut_pass (fuel : nat) (drv : driver) (d : delay)
    (bits : list ascii) (r : Z) (w : world) :
  sleeps d = true -> binary bits -> queue (absorb w) = [] ->
  exists t w',
    playback (S fuel) drv true d bits r w = (t, w', Exited)
    /\ prefix (pin_writes t) (levels drv bits)
    /\ pending w' = pending w.
Proof.
  intros Hp Hb Hq.
  destruct (play_bits_prefix drv d bits Hp Hb (absorb w)) as [t [w' [E Hpre]]].
  exists (Poll true :: t ++ close drv), w'.
  assert (Ep : playback (S fuel) drv true d bits r w
               = (Poll true :: t ++ close drv, w', Exited)).
  { rewrite playback_S. unfold queue_empty. rewrite Hq. cbn [is_nil negb].
    rewrite E. reflexivity. }
  split; [exact Ep|]. split.
  - change (Poll true :: t ++ close drv) with ([Poll true] ++ t ++ close drv).
    rewrite !pin_writes_app, pin_writes_close, app_nil_r. exact Hpre.
  - exact (proj1 (proj2 (playback_frame drv true d bits _ _ _ _ _ _ Ep))).
Qed.



(** X13: a command whose bitstream item is an int instead of a str is
    abandoned with an error report before any driver call and before
    any look at the queue, whatever its other items; but its option
    flag has been acted on by then: with [CMD_SAVE] the save slot has
    been overwritten with the prior command, with [CMD_EXIT] the exit
    flag is set although nothing was played. *)
Theorem X13_int_for_bitstream (fuel : nat) (drv : driver) (st : player)
    (x0 x2 : pyval) (z : Z) (w : world) :
  let c3 := [x0; PInt z; x2] in
  let cs := [x0; PInt z; x2; PInt CMD_SAVE] in
  let cx := [x0; PInt z; x2; PInt CMD_EXIT] in
  iteration fuel drv st c3 w
  = ([Print (Aborted (Some c3))], Continue (took c3 st) w)
  /\ iteration fuel drv st cs w
     = ([Print (Aborted (Some cs))],
        Continue {| cmd := Some cs; cmd_save := cmd st; do_exit := do_exit st |} w)
  /\ iteration fuel drv st cx w
     = ([Print (Aborted (Some cx))],
        Continue {| cmd := Some cx; cmd_save := cmd_save st; do_exit := true |} w).
Proof.
  cbv zeta. unfold iteration, resolve, decode.
  cbn [len List.length item nth Z.of_nat Pos.of_succ_nat Pos.succ Z.eqb Pos.eqb
       orb eq_int pyval_eqb CMD_SAVE CMD_RESTORE CMD_EXIT cmd cmd_save do_exit
       py_list].
  destruct (py_float x0); repeat split.
Qed.

(** X14: the exit flag outlives the command that set it.  With the
    flag set, a well-formed command without option flag (an int period
    that [float] converts and [time.sleep] accepts, a bitstream of 0
    and 1), dequeued while nothing else is queued or arrives, is played
    for exactly one pass whatever its repeat count, and the thread
    exits. *)
Theorem X14_exit_flag_outlives_command (fuel : nat) (drv : driver)
    (st : player) (p : Z) (s : string) (r : Z) (arr : list (list command)) :
  do_exit st = true -> holdable p -> binary (list_ascii_of_string s) ->
  silent arr ->
  blinky (S (S fuel)) drv st {| queue := [plain p s r]; arrivals := arr |}
  = (Get (plain p s r)
       :: one_pass drv (Ms p) (list_ascii_of_string s) ++ close drv,
     Terminated).
Proof.
  intros Hex [Hf Hd] Hb Harr.
  destruct (playback_exiting drv (Ms p) (list_ascii_of_string s) r Hd Hb fuel
              {| queue := []; arrivals := arr |} (quiet_silent arr Harr))
    as [w' [E _]].
  cbn [blinky]. rewrite queue_get_cons, (iteration_plain _ _ _ _ _ _ _ Hf), Hex, E.
  reflexivity.
Qed.

(** X15: with the exit flag clear, an empty bitstream with a repeat
    count that is not positive makes the thread spin: alone in its
    queue the command is never finished, and all the thread does is
    check the queue again and again, with no driver call and no hold
    between two checks.  [time.sleep] is never called, so this holds
    for every int period that [float] converts, even a negative one
    or one too long to sleep. *)
Theorem X15_empty_bitstream_spins (fuel : nat) (drv : driver) (st : player)
    (p r : Z) (arr : list (list command)) :
  Z.abs p < float_limit -> r <= 0 -> do_exit st = false -> silent arr ->
  exists w',
    blinky (S fuel) drv st {| queue := [plain p "" r]; arrivals := arr |}
    = (Get (plain p "" r) :: repeat (Poll true) fuel,
       Running (took (plain p "" r) st) w')
    /\ quiet w'.
Proof.
  intros Hf Hr Hex Harr.
  destruct (playback_empty drv (Ms p) r Hr fuel {| queue := []; arrivals := arr |}
              (quiet_silent arr Harr)) as [w' [E Hw']].
  exists w'. split; [|exact Hw'].
  cbn [blinky]. rewrite queue_get_cons, (iteration_plain _ _ _ _ _ _ _ Hf), Hex.
  cbn [list_ascii_of_string]. rewrite E. reflexivity.
Qed.

(** X18: a well-formed command without option flag and with repeat
    count [n > 0] (an int period that [float] converts and
    [time.sleep] accepts, a bitstream of 0 and 1), dequeued with the
    exit flag clear and alone in a queue that receives nothing else,
    is played for exactly [n] passes: the trace of the thread is the
    dequeue followed by [n] undisturbed passes, that is [n] times the
    levels of the pattern in order and [n * len(pattern)] holds of the
    period each; then the thread waits in [queue.get()]. *)
Theorem X18_counted_passes (fuel : nat) (drv : driver) (st : player)
    (p : Z) (s : string) (n : Z) (arr : list (list command)) :
  holdable p -> binary (list_ascii_of_string s) -> 0 < n ->
  do_exit st = false -> silent arr -> (Z.to_nat n < fuel)%nat ->
  let c := plain p s n in
  let bits := list_ascii_of_string s in
  let t := passes (Z.to_nat n) drv (Ms p) bits in
  blinky fuel drv st {| queue := [c]; arrivals := arr |}
  = (Get c :: t, Waiting (took c st))
  /\ pin_writes t = List.concat (repeat (levels drv bits) (Z.to_nat n))
  /\ holds t = repeat (Hold (Ms p)) (Z.to_nat n * List.length bits).
Proof.
  intros Hh Hb Hn Hex Harr Hfuel c bits t.
  split; [|split; [apply pin_writes_passes | apply holds_passes]].
  apply counted_passes; assumption.
Qed.

End Thread.

(** ** Worked runs on the sample platform *)

(** *** Repeat counts *)

Lemma C1_zero_repeats_on_witness :
  exists w',
    blinky sample 4 PigpioHandle start (queued [plain 50 "10" 0])
    = (Get (plain 50 "10" 0)
         :: passes 3 PigpioHandle (Ms 50) (list_ascii_of_string "10"),
       Running (took (plain 50 "10" 0) start) w')
    /\ quiet w'.
Proof.
  apply (C1_zero_repeats_on sample 3 PigpioHandle start 50 "10" []);
    first [ (split; vm_compute; reflexivity) | reflexivity | constructor ].
Defined.

(** C1 as stated fails: with repeat count 1 the pattern "10" is played
    once and the thread waits; with repeat count 0 three passes have
    been played after three passes' worth of running and the thread is
    still in the playback loop. *)
Lemma C1_counterexample :
  let run r := blinky sample 4 PigpioHandle start (queued [plain 50 "10" r]) in
  pin_writes (fst (run 1)) = [Write 1; Write 0]
  /\ snd (run 1) = Waiting (took (plain 50 "10" 1) start)
  /\ pin_writes (fst (run 0))
     = [Write 1; Write 0; Write 1; Write 0; Write 1; Write 0]
  /\ pin_writes (fst (run 0)) <> pin_writes (fst (run 1))
  /\ forall st, snd (run 0) <> Waiting st.
Proof.
  cbv zeta. repeat split; try (vm_compute; reflexivity).
  - vm_compute. discriminate.
  - intros st. vm_compute. discriminate.
Qed.

(** C7 fails on the code when the exit flag is left set by a command
    that was preempted: [[0, "0", 1, CMD_EXIT]] followed at once by
    [[50, "10", 3]].  The exiting command sets the flag and is
    preempted at line 148; the counted command, itself without flag
    and never preempted, is played for one pass instead of three and
    the thread exits at line 165 instead of going back to
    [queue.get()].  Dequeued with the flag clear, the same command is
    played for its three passes. *)
Lemma C7_count_cut_by_exit_flag :
  let X := flagged 0 "0" 1 CMD_EXIT in
  let B := plain 50 "10" 3 in
  blinky sample 9 PigpioHandle start (queued [X; B])
  = ([Get X; Poll false;
      Get B; Poll true; Poll true; Write 1; Hold (Ms 50); Poll true; Write 0;
      Hold (Ms 50)],
     Terminated)
  /\ blinky sample 9 PigpioHandle start (queued [B])
     = (Get B :: passes 3 PigpioHandle (Ms 50) (list_ascii_of_string "10"),
        Waiting (took B start)).
Proof. split; vm_compute; reflexivity. Qed.

Lemma C8_endless_repeat_witness :
  exists w',
    playback sample 7 PigpioHandle false (Ms 500) (list_ascii_of_string "10") (-1)
      (queued [])
    = (passes 7 PigpioHandle (Ms 500) (list_ascii_of_string "10"), w', OutOfFuel)
    /\ quiet w'.
Proof.
  apply (C8_endless_repeat sample 7 PigpioHandle false (Ms 500)
           (list_ascii_of_string "10") (queued []));
    first [ reflexivity | exact quiet_queued_nil ].
Defined.

Lemma C10_below_minus_one_witness :
  playback sample 5 PigpioHandle false (Ms 50) (list_ascii_of_string "10") (-2)
    (queued [])
  = playback sample 5 PigpioHandle false (Ms 50) (list_ascii_of_string "10") (-1)
      (queued []).
Proof.
  apply (C10_below_minus_one sample 5 PigpioHandle start 50 "10" (-2) []). lia.
Defined.

Lemma X18_counted_passes_witness :
  blinky sample 5 PigpioHandle start (queued [plain 50 "1000" 3])
  = (Get (plain 50 "1000" 3)
       :: passes 3 PigpioHandle (Ms 50) (list_ascii_of_string "1000"),
     Waiting (took (plain 50 "1000" 3) start)).
Proof.
  apply (X18_counted_passes sample 5 PigpioHandle start 50 "1000" 3 []);
    first [ (split; vm_compute; reflexivity) | reflexivity | lia | constructor ].
Defined.

(** *** Save, restore and dropped commands *)

Lemma C4_save_records_then_plays_witness :
  cmd_save
    (after sample (after sample start [PInt 5; PStr "1"])
       [PInt 50; PStr "1"; PInt 1; PInt CMD_SAVE])
  = Some [PInt 5; PStr "1"].
Proof.
  apply (proj1 (proj2 (proj2 (proj2
           (C4_save_records_then_plays sample 3 PigpioHandle start 50 "1" 1
              (PInt 50) (PStr "1") (PInt 1) (queued [])))))).
  reflexivity.
Defined.

(** C4 as stated fails: [[500, "10", -1]] is playing when a command
    with an unknown option flag and then a saving command arrive.  The
    first is dropped without being played, and the save then stores
    that dropped command, not the command that was played before. *)
Lemma C4_counterexample :
  let A := plain 500 "10" (-1) in
  let M := flagged 0 "0" 0 7 in
  let B := flagged 50 "1" 1 CMD_SAVE in
  blinky sample 9 PigpioHandle start
    {| queue := [A]; arrivals := [[]; []; []; [M; B]] |}
  = ([Get A; Poll true; Poll true; Write 1; Hold (Ms 500); Poll true; Write 0;
      Hold (Ms 500); Poll false;
      Get M; Print (InvalidOption M);
      Get B; Poll true; Poll true; Write 1; Hold (Ms 50)],
     Waiting {| cmd := Some B; cmd_save := Some M; do_exit := false |})
  /\ Some M <> Some A.
Proof.
  cbv zeta. split; [vm_compute; reflexivity | discriminate].
Qed.

Lemma C5_save_restore_round_trip_witness :
  let A := plain 500 "10" 2 in
  let B := flagged 50 "10000000" 2 CMD_SAVE in
  let R := [PInt 0; PInt 0; PInt 0; PInt CMD_RESTORE] in
  let st' := fold_left (after sample) [A; B; R; R] start in
  resolve sample st' R
  = ({| cmd := Some A; cmd_save := Some A; do_exit := do_exit st' |},
     Play (Ms 500) (list_ascii_of_string "10") 2).
Proof.
  intros A B R st'.
  apply (C5_save_restore_round_trip sample start A B R [R; R] (Ms 500)
           (list_ascii_of_string "10") 2);
    first [ reflexivity | repeat constructor ].
Defined.

(** The session of the module docstring, each command arriving after
    the one before it has been played out: both restoring commands
    replay the two passes of the saved [[500, "10", 2]]. *)
Example docstring_session :
  let A := plain 500 "10" 2 in
  let B := flagged 50 "10" 1 CMD_SAVE in
  let R := flagged 0 "0" 0 CMD_RESTORE in
  let A_played := passes 2 PigpioHandle (Ms 500) (list_ascii_of_string "10") in
  let idle := repeat [] 6 in
  blinky sample 9 PigpioHandle start
    {| queue := [A]; arrivals := idle ++ [[B]; []; []; []; [R]] ++ idle ++ [[R]] |}
  = (Get A :: A_played
       ++ Get B :: passes 1 PigpioHandle (Ms 50) (list_ascii_of_string "10")
       ++ Get R :: A_played ++ Get R :: A_played,
     Waiting {| cmd := Some A; cmd_save := Some A; do_exit := false |}).
Proof. vm_compute. reflexivity. Qed.

Lemma C3_restore_without_save_witness :
  let R := flagged 0 "0" 0 CMD_RESTORE in
  iteration sample 3 PigpioHandle (took (plain 500 "10" 2) start) R (queued [])
  = ([Print (NoPriorSave R)],
     Continue {| cmd := Some R; cmd_save := None; do_exit := false |} (queued [])).
Proof.
  intros R.
  apply (C3_restore_without_save sample 3 PigpioHandle
           (took (plain 500 "10" 2) start) R (queued [])); reflexivity.
Defined.

(** C3 as stated fails: [[500, "10", -1]] is playing when a restoring
    command and then a saving command arrive.  The restore is dropped
    with nothing saved, and the save then stores the dropped restoring
    command, not the command that was playing. *)
Lemma C3_counterexample :
  let A := plain 500 "10" (-1) in
  let R := flagged 0 "0" 0 CMD_RESTORE in
  let B := flagged 50 "1" 1 CMD_SAVE in
  let before := took A start in
  let dropped := after sample before R in
  cmd before = Some A
  /\ cmd dropped = Some R
  /\ cmd dropped <> cmd before
  /\ blinky sample 9 PigpioHandle start
       {| queue := [A]; arrivals := [[]; []; []; [R; B]] |}
     = ([Get A; Poll true; Poll true; Write 1; Hold (Ms 500); Poll true; Write 0;
         Hold (Ms 500); Poll false;
         Get R; Print (NoPriorSave R);
         Get B; Poll true; Poll true; Write 1; Hold (Ms 50)],
        Waiting {| cmd := Some B; cmd_save := Some R; do_exit := false |}).
Proof.
  cbv zeta. repeat split; try (vm_compute; reflexivity).
  vm_compute. discriminate.
Qed.

(** *** Commands that are not well formed *)



(** *** Exit *)

(** C6 fails on the code when a command is queued behind the exiting
    one: [[0, "0", 1, CMD_EXIT]] followed by [[50, "1", 1]].  The
    exiting command sets the flag but is preempted at line 148 before
    its bit is written and before line 160 is reached; the next
    command is dequeued and played, and the thread exits after that
    command's first pass, the pin left on. *)
Lemma C6_exit_preempted :
  let X := flagged 0 "0" 1 CMD_EXIT in
  let B := plain 50 "1" 1 in
  blinky sample 9 (DriverCode DRIVER_GPIOZERO) start (queued [X; B])
  = ([Get X; Poll false; Get B; Poll true; Poll true; On; Hold (Ms 50); Close],
     Terminated)
  /\ blinky sample 9 (DriverCode DRIVER_GPIOZERO) start (queued [X])
     = ([Get X; Poll true; Poll true; Off; Hold (Ms 0); Close], Terminated).
Proof. split; vm_compute; reflexivity. Qed.

(** *** Preemption *)

Lemma C9_preemption_at_bit_boundaries_witness :
  guarded (Ms 500)
    (fst (fst (playback sample 4 PigpioHandle false (Ms 500)
                 (list_ascii_of_string "10") (-1)
                 {| queue := []; arrivals := [[]; []; [plain 50 "1" 1]] |}))).
Proof.
  apply (C9_preemption_at_bit_boundaries sample 4 PigpioHandle false (Ms 500)
           (list_ascii_of_string "10") (-1)
           {| queue := []; arrivals := [[]; []; [plain 50 "1" 1]] |}).
  reflexivity.
Defined.

(** A command arriving during the first hold of [[500, "10", -1]]: the
    hold is completed, the next check finds the command, the second
    bit is not written and the new command is played. *)
Example preempted_after_one_bit :
  blinky sample 9 PigpioHandle start
    {| queue := [plain 500 "10" (-1)]; arrivals := [[]; []; [plain 50 "1" 1]] |}
  = ([Get (plain 500 "10" (-1)); Poll true; Poll true; Write 1; Hold (Ms 500);
      Poll false; Poll false;
      Get (plain 50 "1" 1); Poll true; Poll true; Write 1; Hold (Ms 50)],
     Waiting (took (plain 50 "1" 1) start)).
Proof. vm_compute. reflexivity. Qed.

(** *** Further properties *)

Lemma X1_invalid_option_witness :
  iteration sample 3 PigpioHandle start (flagged 50 "10" 2 7) (queued [])
  = ([Print (InvalidOption (flagged 50 "10" 2 7))],
     Continue (took (flagged 50 "10" 2 7) start) (queued [])).
Proof.
  apply (X1_invalid_option sample 3 PigpioHandle start (flagged 50 "10" 2 7)
           (queued [])); reflexivity.
Defined.

Lemma X2_save_slot_frame_witness :
  cmd_save (after sample (mkPlayer None (Some (plain 500 "10" 2)) false)
              (flagged 0 "0" 1 CMD_EXIT))
  = Some (plain 500 "10" 2).
Proof.
  apply (X2_save_slot_frame sample (mkPlayer None (Some (plain 500 "10" 2)) false)
           (flagged 0 "0" 1 CMD_EXIT)).
  reflexivity.
Defined.

Lemma X4_save_first_saves_nothing_witness :
  cmd_save (after sample start (flagged 50 "10" 2 CMD_SAVE)) = None.
Proof.
  apply (X4_save_first_saves_nothing sample start (flagged 50 "10" 2 CMD_SAVE)
           (flagged 0 "0" 0 CMD_RESTORE)); reflexivity.
Defined.

Lemma X5_init_covers_thread_witness :
  incl (pin_reads (DriverCode DRIVER_GPIOZERO)
          ++ close_reads (DriverCode DRIVER_GPIOZERO)) [gpiozero_instance].
Proof.
  apply (X5_init_covers_thread (DriverCode DRIVER_GPIOZERO)). reflexivity.
Defined.

Lemma X6_first_in_first_out_witness :
  let w := {| queue := [plain 500 "10" 2];
              arrivals := [[]; [flagged 50 "1" 1 CMD_SAVE]] |} in
  gets (fst (blinky sample 5 PigpioHandle start w)) = pending w.
Proof.
  intros w.
  apply (proj1 (proj2 (X6_first_in_first_out sample 5 PigpioHandle start w))
           (took (flagged 50 "1" 1 CMD_SAVE)
              {| cmd := None; cmd_save := Some (plain 500 "10" 2);
                 do_exit := false |})).
  vm_compute. reflexivity.
Defined.

Lemma X7_playback_gives_way_witness :
  exists t w' o,
    playback sample 4 PigpioHandle false (Ms 500) (list_ascii_of_string "10") (-1)
      {| queue := []; arrivals := [[]; []; [plain 50 "1" 1]] |} = (t, w', o)
    /\ (o = Preempted \/ o = Exhausted \/ o = Exited \/ o = Raised)
    /\ pending w' = [plain 50 "1" 1].
Proof.
  apply (X7_playback_gives_way sample 4 PigpioHandle false (Ms 500)
           (list_ascii_of_string "10") (-1)
           {| queue := []; arrivals := [[]; []; [plain 50 "1" 1]] |});
    [discriminate | cbn; lia].
Defined.

Lemma X8_every_command_is_reached_witness :
  let w := {| queue := [plain 500 "10" (-1)];
              arrivals := [[]; []; [plain 50 "1" (-1)]] |} in
  snd (blinky sample 6 PigpioHandle start w) = Terminated
  \/ (gets (fst (blinky sample 6 PigpioHandle start w)) = pending w
      /\ forall st' w', snd (blinky sample 6 PigpioHandle start w) = Running st' w' ->
           pending w' = []).
Proof.
  intros w. apply (X8_every_command_is_reached sample 6 PigpioHandle start w).
  cbn. lia.
Defined.

Lemma X9_exit_only_on_request_witness :
  let w := queued [plain 50 "1" 1; flagged 0 "0" 1 CMD_EXIT] in
  do_exit start = true
  \/ Exists (fun c => has_flag c CMD_EXIT = true)
       (gets (fst (blinky sample 5 PigpioHandle start w))).
Proof.
  intros w. apply (X9_exit_only_on_request sample 5 PigpioHandle start w).
  vm_compute. reflexivity.
Defined.

Lemma X10_exit_pushed_last_terminates_witness :
  snd (blinky sample 7 (DriverCode DRIVER_GPIOZERO) start
         {| queue := [plain 500 "10" (-1)];
            arrivals := [[]; []; [flagged 0 "0" 1 CMD_EXIT]] |})
  = Terminated.
Proof.
  apply (X10_exit_pushed_last_terminates sample 7 (DriverCode DRIVER_GPIOZERO)
           start 0 "0" 1 [plain 500 "10" (-1)]);
    first [ (split; vm_compute; reflexivity) | reflexivity | cbn; lia ].
Defined.

Lemma X11_exit_after_cut_pass_witness :
  exists t w',
    playback sample 3 PigpioHandle true (Ms 500) (list_ascii_of_string "10") 1
      {| queue := []; arrivals := [[]; []; [plain 50 "1" 1]] |} = (t, w', Exited)
    /\ prefix (pin_writes t) (levels PigpioHandle (list_ascii_of_string "10"))
    /\ pending w' = [plain 50 "1" 1].
Proof.
  apply (X11_exit_after_cut_pass sample 2 PigpioHandle (Ms 500)
           (list_ascii_of_string "10") 1
           {| queue := []; arrivals := [[]; []; [plain 50 "1" 1]] |});
    reflexivity.
Defined.

(** An exiting command cut short after its first bit: the pin stays
    on although the pattern ends with 0, and the command that arrived
    is never taken from the queue. *)
Example exit_cut_after_first_bit :
  blinky sample 5 PigpioHandle start
    {| queue := [flagged 500 "10" 1 CMD_EXIT];
       arrivals := [[]; []; [plain 50 "1" 1]] |}
  = ([Get (flagged 500 "10" 1 CMD_EXIT); Poll true; Poll true; Write 1;
      Hold (Ms 500); Poll false], Terminated).
Proof. vm_compute. reflexivity. Qed.


Lemma X14_exit_flag_outlives_command_witness :
  blinky sample 4 PigpioHandle (mkPlayer None None true)
    (queued [plain 50 "10" (-1)])
  = (Get (plain 50 "10" (-1))
       :: one_pass PigpioHandle (Ms 50) (list_ascii_of_string "10")
       ++ close PigpioHandle,
     Terminated).
Proof.
  apply (X14_exit_flag_outlives_command sample 2 PigpioHandle
           (mkPlayer None None true) 50 "10" (-1) []);
    first [ (split; vm_compute; reflexivity) | reflexivity | constructor ].
Defined.

(** An exiting command that fails to decode, then an endless pattern:
    the pattern is played once and the thread exits. *)
Example aborted_exit_then_pattern :
  let X := [PInt 0; PInt 0; PInt 1; PInt CMD_EXIT] in
  blinky sample 5 PigpioHandle start
    {| queue := [X]; arrivals := [[plain 500 "10" (-1)]] |}
  = ([Get X; Print (Aborted (Some X));
      Get (plain 500 "10" (-1)); Poll true; Poll true; Write 1; Hold (Ms 500);
      Poll true; Write 0; Hold (Ms 500)],
     Terminated).
Proof. vm_compute. reflexivity. Qed.

Lemma X15_empty_bitstream_spins_witness :
  exists w',
    blinky sample 4 PigpioHandle start (queued [plain (-5) "" 0])
    = (Get (plain (-5) "" 0) :: repeat (Poll true) 3,
       Running (took (plain (-5) "" 0) start) w')
    /\ quiet w'.
Proof.
  apply (X15_empty_bitstream_spins sample 3 PigpioHandle start (-5) 0 []);
    first [ lia | reflexivity | constructor ].
Defined.

Lemma X16_counted_command_bound_witness :
  (List.length
     (pin_writes
        (fst (fst (playback sample 9 PigpioHandle false (Ms 50)
                     (list_ascii_of_string "1000") 3
                     {| queue := []; arrivals := [[]; []; []; [plain 0 "1" 1]] |}))))
   <= Z.to_nat 3 * List.length (list_ascii_of_string "1000"))%nat.
Proof.
  apply (X16_counted_command_bound sample 9 PigpioHandle false (Ms 50)
           (list_ascii_of_string "1000") 3). lia.
Defined.
